(** * Shellfish command-line front end: a model of [shellfish.go]

    The development follows the file top-down: Go run-time conventions
    (integers, slices, strings), the argument classifier ([isConfig],
    [configNum], [getFlags]), the two configuration resolvers
    ([getGlobalConfig], [getConfig]), the memoization guard
    ([checkMemoDir], [copyFile], [configEqual]), the backend
    initialisers ([initCatalogs], [initHalos]) and finally [main]. *)

From Stdlib Require Import ZArith Ascii String List Bool Lia.
From stdpp Require Import base option list strings gmap.

(** ** Go run-time conventions *)

Module Go.

(** A Go computation either yields a value or stops with a run-time
    panic.  Errors returned as values ([error]) are ordinary results. *)
Inductive go (A : Type) : Type :=
| Val (a : A)
| Panic (msg : string).
Arguments Val {A} a.
Arguments Panic {A} msg.

#[global] Instance go_ret : MRet go := λ A a, Val a.
#[global] Instance go_bind : MBind go := λ A B k m,
  match m with
  | Val a => k a
  | Panic msg => Panic msg
  end.

(** [error] values are shown by their message. *)
Definition error : Type := string.

(** [int] is modelled by [Z]; lengths of argument vectors and of strings
    stay far below the overflow bound of the 64-bit type. *)
Definition len {A} (l : list A) : Z := Z.of_nat (List.length l).
Definition strlen (s : string) : Z := Z.of_nat (String.length s).

(** [l[i]]: index expression, a panic when out of range. *)
Definition index {A} (l : list A) (i : Z) : go A :=
  if (0 <=? i)%Z then
    match l !! Z.to_nat i with
    | Some a => Val a
    | None => Panic "index out of range"
    end
  else Panic "index out of range".

(** [l[lo:hi]]: slice expression.  The capacity is taken to be the
    length. *)
Definition slice {A} (l : list A) (lo hi : Z) : go (list A) :=
  if ((0 <=? lo)%Z && (lo <=? hi)%Z && (hi <=? len l)%Z)%bool
  then Val (take (Z.to_nat (hi - lo)) (drop (Z.to_nat lo) l))
  else Panic "slice bounds out of range".

(** [s[lo:hi]] on strings (byte offsets). *)
Definition strslice (s : string) (lo hi : Z) : go string :=
  if ((0 <=? lo)%Z && (lo <=? hi)%Z && (hi <=? strlen s)%Z)%bool
  then Val (String.substring (Z.to_nat lo) (Z.to_nat (hi - lo)) s)
  else Panic "slice bounds out of range".

(** The line feed, Go's ["\n"]. *)
Definition nl : string := String (ascii_of_nat 10) EmptyString.

End Go.
Export Go.

(** ** Argument classifier *)

(** [isConfig]: [len(s) >= 7 && s[len(s)-7:] == ".config"].  The
    conjunction is short-circuiting, so the slice is only taken when it is
    in range. *)
Definition isConfig (s : string) : bool :=
  (7 <=? strlen s)%Z &&
  match strslice s (strlen s - 7) (strlen s) with
  | Val t => String.eqb t ".config"
  | Panic _ => false
  end.

(** The loop of [configNum]: [i] runs from [len(args)-1] down to [0];
    [n] is [i+1], so that the loop ends when [n] reaches [0]. *)
Fixpoint configNum_loop (args : list string) (n : nat) (num : Z) : Z :=
  match n with
  | O => num
  | S i =>
      match args !! i with
      | Some a => if isConfig a then configNum_loop args i (num + 1)%Z else num
      | None => num
      end
  end.

Definition configNum (args : list string) : Z :=
  configNum_loop args (List.length args) 0%Z.

(** [getFlags]: [args[1 : len(args)-1-configNum(args)]]. *)
Definition getFlags (args : list string) : go (list string) :=
  slice args 1 (len args - 1 - configNum args).

(** ** Data model *)

Module cmd.

(** [cmd.GlobalConfig]: the fields that [shellfish.go] reads.  The fields
    promoted from the embedded particle and halo descriptions are listed
    with the others.  [Threads] is the setting named by the comment in
    [configEqual]. *)
Record GlobalConfig : Type := mkGlobalConfig {
  Version : string;
  SnapshotFormat : string;
  SnapshotType : string;
  HaloDir : string;
  HaloType : string;
  TreeDir : string;
  TreeType : string;
  MemoDir : string;
  BlockMins : list Z;
  BlockMaxes : list Z;
  SnapMin : Z;
  SnapMax : Z;
  SnapshotFormatMeanings : list string;
  HaloPositionUnits : string;
  HaloMassUnits : string;
  HaloValueColumns : list Z;
  HaloValueNames : list string;
  Endianness : string;
  ValidateFormats : bool;
  Threads : Z
}.

End cmd.

Module env.

(** Modelled from the spec: [env.Environment], whose declaration is not in
    [shellfish.go], is a handle holding the memoization directory path
    and references to the activated snapshot and halo backends.  A
    reference is shown by the name of the reader it points to. *)
Record Environment : Type := mkEnvironment {
  MemoDir : string;
  Snapshots : option string;
  Halos : option string
}.

End env.

(** Results of operations that return an [error]. *)
Inductive Res (A : Type) : Type :=
| Ok (a : A)
| Err (e : error).
Arguments Ok {A} a.
Arguments Err {A} e.

(** The file system: regular files by path with their contents, and the
    set of directories.  Paths are compared as written, and the only
    faults are missing paths and paths of the wrong kind. *)
Record FS : Type := mkFS {
  files : gmap string string;
  dirs : gset string
}.

(** A mode after [ReadConfig]: what is left is its [Run] operation, which
    may write to the file system. *)
Record ConfiguredMode : Type := mkConfiguredMode {
  Run : list string → cmd.GlobalConfig → env.Environment → list string →
        FS → Res (list string) * FS
}.

(** An entry of [cmd.ModeNames].  [ReadConfig] is given the file name, or
    the empty string for the defaults. *)
Record Mode : Type := mkMode {
  ReadConfig : FS → string → Res ConfiguredMode
}.

(** What [shellfish.go] takes from the rest of the repository and from the
    Go library. *)
Record Deps : Type := mkDeps {
  (** [cmd.ModeNames], the mode registry *)
  ModeNames : string → option Mode;
  (** the parser behind [ReadConfig] of [cmd.GlobalConfig], applied to the
      contents of the file *)
  parseGlobalConfig : string → Res cmd.GlobalConfig;
  (** the initialisers of package [env] *)
  InitGotetra : env.Environment → cmd.GlobalConfig → bool → FS →
                env.Environment * option error;
  InitLGadget2 : env.Environment → cmd.GlobalConfig → bool → FS →
                 env.Environment * option error;
  InitARTIO : env.Environment → cmd.GlobalConfig → bool → FS →
              env.Environment * option error;
  InitTextHalo : env.Environment → cmd.GlobalConfig → FS →
                 env.Environment * option error;
  (** [path.Join] and [path.Dir] *)
  path_Join : string → string → string;
  path_Dir : string → string;
  (** the texts of the help mode and [version.SourceVersion] *)
  helpStrings : string → option string;
  modeDescriptions : string;
  SourceVersion : string
}.

(** The process: its arguments, its environment variables and what
    reading standard input to the end gives. *)
Record Proc : Type := mkProc {
  Args : list string;
  Getenv : string → string;
  Stdin : Res string
}.

Section Resolvers.

Context (X : Deps).

(** [ReadConfig(fname)] on a [cmd.GlobalConfig] *)
Definition GlobalConfig_ReadConfig (fs : FS) (fname : string)
  : Res cmd.GlobalConfig :=
  match files fs !! fname with
  | Some text => parseGlobalConfig X text
  | None => Err ("open " +:+ fname +:+ ": no such file or directory")
  end.

(** The common tail of [getGlobalConfig]: read [name] into a fresh
    configuration. *)
Definition loadGlobalConfig (fs : FS) (name : string)
  : Res (string * cmd.GlobalConfig) :=
  match GlobalConfig_ReadConfig fs name with
  | Err e => Err e
  | Ok config => Ok (name, config)
  end.

Definition getGlobalConfig (P : Proc) (fs : FS)
  : go (Res (string * cmd.GlobalConfig)) :=
  let args := Args P in
  let name := Getenv P "SHELLFISH_GLOBAL_CONFIG" in
  if negb (String.eqb name "") then
    if (1 <? configNum args)%Z then
      mret (Err ("$SHELLFISH_GLOBAL_CONFIG has been " +:+
                 "set, so you may only pass a single config file as a " +:+
                 "parameter."))
    else mret (loadGlobalConfig fs name)
  else
    match configNum args with
    | 0%Z => mret (Err ("No config files provided in command " +:+
                        "line arguments."))
    | 1%Z => name ← index args (len args - 1); mret (loadGlobalConfig fs name)
    | 2%Z => name ← index args (len args - 2); mret (loadGlobalConfig fs name)
    | _ => mret (Err "Passed too many config files as arguments.")
    end.

Definition getConfig (P : Proc) : go (string * bool) :=
  let args := Args P in
  if negb (String.eqb (Getenv P "SHELLFISH_GLOBAL_CONFIG") "")
     && (configNum args =? 1)%Z then
    a ← index args (len args - 1); mret (a, true)
  else if String.eqb (Getenv P "SHELLFISH_GLOBAL_CONFIG") ""
          && (configNum args =? 2)%Z then
    a ← index args (len args - 1); mret (a, true)
  else mret ("", false).

End Resolvers.

(** ** Memoization guard *)

(** The loop shared by [int64sEqual] and [stringsEqual]:
    [for i := range xs { if xs[i] != ys[i] { return false } }; return true],
    with [n] the number of iterations left.  The length test before the
    loop keeps both index expressions in range. *)
Fixpoint elemsEqual_from {A} (eqb : A → A → bool) (xs ys : list A)
    (i n : nat) : bool :=
  match n with
  | O => true
  | S n' =>
      match xs !! i, ys !! i with
      | Some x, Some y =>
          if negb (eqb x y) then false else elemsEqual_from eqb xs ys (S i) n'
      | _, _ => false
      end
  end.

Definition int64sEqual (xs ys : list Z) : bool :=
  if negb (len xs =? len ys)%Z then false
  else elemsEqual_from Z.eqb xs ys 0 (List.length xs).

Definition stringsEqual (xs ys : list string) : bool :=
  if negb (len xs =? len ys)%Z then false
  else elemsEqual_from String.eqb xs ys 0 (List.length xs).

Definition configEqual (m c : cmd.GlobalConfig) : bool :=
  String.eqb (cmd.Version c) (cmd.Version m) &&
  String.eqb (cmd.SnapshotFormat c) (cmd.SnapshotFormat m) &&
  String.eqb (cmd.SnapshotType c) (cmd.SnapshotType m) &&
  String.eqb (cmd.HaloDir c) (cmd.HaloDir m) &&
  String.eqb (cmd.HaloType c) (cmd.HaloType m) &&
  String.eqb (cmd.TreeDir c) (cmd.TreeDir m) &&
  String.eqb (cmd.MemoDir c) (cmd.MemoDir m) &&
  int64sEqual (cmd.BlockMins c) (cmd.BlockMins m) &&
  int64sEqual (cmd.BlockMaxes c) (cmd.BlockMaxes m) &&
  (cmd.SnapMin c =? cmd.SnapMin m)%Z &&
  (cmd.SnapMax c =? cmd.SnapMax m)%Z &&
  stringsEqual (cmd.SnapshotFormatMeanings c) (cmd.SnapshotFormatMeanings m) &&
  String.eqb (cmd.HaloPositionUnits c) (cmd.HaloPositionUnits m) &&
  String.eqb (cmd.HaloMassUnits c) (cmd.HaloMassUnits m) &&
  int64sEqual (cmd.HaloValueColumns c) (cmd.HaloValueColumns m) &&
  stringsEqual (cmd.HaloValueNames c) (cmd.HaloValueNames m) &&
  String.eqb (cmd.Endianness c) (cmd.Endianness m).

Section MemoGuard.

Context (X : Deps).

(** [os.Stat(p)] returns no error. *)
Definition os_Stat_ok (fs : FS) (p : string) : bool :=
  bool_decide (is_Some (files fs !! p)) || bool_decide (p ∈ dirs fs).

(** [os.Open(p)] returns no error: files and directories can both be
    opened for reading. *)
Definition os_Open_ok (fs : FS) (p : string) : bool := os_Stat_ok fs p.

(** [os.Create(p)] returns no error: the parent directory exists and [p]
    is not itself a directory. *)
Definition os_Create_ok (fs : FS) (p : string) : bool :=
  bool_decide (path_Dir X p ∈ dirs fs) && negb (bool_decide (p ∈ dirs fs)).

(** The state after a successful [os.Create(p)]: [p] is an empty file. *)
Definition os_Create (fs : FS) (p : string) : FS :=
  mkFS (<[p := ""]> (files fs)) (dirs fs).

(** [copyFile(dst, src)].  The source is read after the destination has
    been created and truncated. *)
Definition copyFile (dst src : string) (fs : FS) : option error * FS :=
  if negb (os_Open_ok fs src) then
    (Some ("open " +:+ src +:+ ": no such file or directory"), fs)
  else if negb (os_Create_ok fs dst) then
    (Some ("open " +:+ dst +:+ ": no such file or directory"), fs)
  else
    let fs1 := os_Create fs dst in
    match files fs1 !! src with
    | None => (Some ("read " +:+ src +:+ ": is a directory"), fs1)
    | Some text => (None, mkFS (<[dst := text]> (files fs1)) (dirs fs1))
    end.

(** [memoConfigFile := path.Join(memoDir, "memo.config")] *)
Definition memoConfigFile (memoDir : string) : string :=
  path_Join X memoDir "memo.config".

Definition checkMemoDir (memoDir configFile : string) (fs : FS)
  : option error * FS :=
  if negb (os_Stat_ok fs (memoConfigFile memoDir)) then
    copyFile (memoConfigFile memoDir) configFile fs
  else
    match GlobalConfig_ReadConfig X fs configFile with
    | Err e => (Some e, fs)
    | Ok config =>
        match GlobalConfig_ReadConfig X fs (memoConfigFile memoDir) with
        | Err e => (Some e, fs)
        | Ok memoConfig =>
            if negb (configEqual config memoConfig) then
              (Some ("The variables in the config file '" +:+ configFile +:+
                     "' do not match the varables used when creating the " +:+
                     "MemoDir, '" +:+ memoDir +:+ ".' These variables can " +:+
                     "be compared by inspecting '" +:+ configFile +:+
                     "' and '" +:+ memoConfigFile memoDir +:+ "'"), fs)
            else (None, fs)
        end
    end.

End MemoGuard.

(** ** Backend initialisers *)

(** Program points of [initHalos], recorded as the function runs. *)
Inductive Point : Type :=
| AtExcludedMode     (* case "shell", "stats", "prof" *)
| AtHaloNil          (* case "nil" *)
| AtHaloText         (* case "Text" *)
| AtTextTreeCheck    (* the [if] on the tree type after the return of case "Text" *)
| AtTreeNil          (* body of [if gConfig.TreeType == "nil"] *)
| AtImpossible.      (* the final panic *)

#[global] Instance Point_eq_dec : EqDecision Point.
Proof. solve_decision. Defined.

(** Statements of a function body with result type [R]: a statement
    extends the list of visited points and either falls through ([None])
    or leaves the function ([Some r]). *)
Module Stmt.

Definition t (R : Type) : Type := list Point → list Point * option R.

Definition skip {R} : t R := λ v, (v, None).
Definition ret {R} (r : R) : t R := λ v, (v, Some r).
Definition at_point {R} (p : Point) : t R := λ v, (v ++ [p], None).
Definition seq {R} (s1 s2 : t R) : t R := λ v,
  match s1 v with
  | (v', Some r) => (v', Some r)
  | (v', None) => s2 v'
  end.
Definition when {R} (b : bool) (s : t R) : t R := if b then s else skip.

End Stmt.

Notation "s1 ;;; s2" := (Stmt.seq s1 s2)
  (at level 100, s2 at level 200, right associativity, only parsing).

Section Backends.

Context (X : Deps).

(** What an initialiser hands back: the environment it updated and the
    error it returned. *)
Definition InitResult : Type := go (env.Environment * option error).

Definition initHalos_body (mode : string) (gConfig : cmd.GlobalConfig)
    (e : env.Environment) (fs : FS) : Stmt.t InitResult :=
  Stmt.when (String.eqb mode "shell" || String.eqb mode "stats"
             || String.eqb mode "prof")
    (Stmt.at_point AtExcludedMode ;;; Stmt.ret (Val (e, None))) ;;;
  (if String.eqb (cmd.HaloType gConfig) "nil" then
     Stmt.at_point AtHaloNil ;;;
     Stmt.ret (Val (e, Some ("You may not use nil as a HaloType for the " +:+
                             "mode '" +:+ mode +:+ ".'" +:+ nl)))
   else if String.eqb (cmd.HaloType gConfig) "Text" then
     Stmt.at_point AtHaloText ;;;
     Stmt.ret (Val (InitTextHalo X e gConfig fs)) ;;;
     Stmt.at_point AtTextTreeCheck ;;;
     Stmt.when (negb (String.eqb (cmd.TreeType gConfig) "consistent-trees"))
       (Stmt.ret (Val (e, Some ("You're trying to use the '%!s(MISSING)' " +:+
                                "TreeType with the 'Text' HaloType."))))
   else Stmt.skip) ;;;
  Stmt.when (String.eqb (cmd.TreeType gConfig) "nil")
    (Stmt.at_point AtTreeNil ;;;
     Stmt.ret (Val (e, Some ("You may not use nil as a TreeType for the " +:+
                             "mode '" +:+ mode +:+ ".'" +:+ nl)))) ;;;
  Stmt.at_point AtImpossible ;;;
  Stmt.ret (Panic "Impossible").

Definition initHalos (mode : string) (gConfig : cmd.GlobalConfig)
    (e : env.Environment) (fs : FS) : InitResult :=
  match snd (initHalos_body mode gConfig e fs []) with
  | Some r => r
  | None => Panic "missing return"
  end.

(** The program points [initHalos] passes through. *)
Definition initHalos_visited (mode : string) (gConfig : cmd.GlobalConfig)
    (e : env.Environment) (fs : FS) : list Point :=
  fst (initHalos_body mode gConfig e fs []).

Definition initCatalogs (gConfig : cmd.GlobalConfig) (e : env.Environment)
    (fs : FS) : InitResult :=
  if String.eqb (cmd.SnapshotType gConfig) "gotetra" then
    Val (InitGotetra X e gConfig (cmd.ValidateFormats gConfig) fs)
  else if String.eqb (cmd.SnapshotType gConfig) "LGadget-2" then
    Val (InitLGadget2 X e gConfig (cmd.ValidateFormats gConfig) fs)
  else if String.eqb (cmd.SnapshotType gConfig) "ARTIO" then
    Val (InitARTIO X e gConfig (cmd.ValidateFormats gConfig) fs)
  else Panic "Impossible.".

End Backends.

(** ** The process *)

(** What the process does that can be seen from outside, in order.
    [EvLog] is a line written by [log.Printf] (to standard error, after
    the time stamp of the logger); [EvCall] records that an operation of
    the mode has been called. *)
Inductive Event : Type :=
| EvStdout (s : string)
| EvStderr (s : string)
| EvLog (s : string)
| EvCall (name : string).

(** How the process ends: [os.Exit(code)] or the return of [main]
    (status [0]), or a panic. *)
Inductive Status : Type :=
| Exited (code : Z)
| Panicked (msg : string).

Record World : Type := mkWorld {
  w_fs : FS;
  w_trace : list Event
}.

Inductive Outcome (A : Type) : Type :=
| Done (a : A)
| Stop (st : Status).
Arguments Done {A} a.
Arguments Stop {A} st.

(** Computations of [main]: state passing over the world, cut short by an
    exit or a panic. *)
Definition M (A : Type) : Type := World → Outcome A * World.

#[global] Instance M_ret : MRet M := λ A a w, (Done a, w).
#[global] Instance M_bind : MBind M := λ A B k m w,
  match m w with
  | (Done a, w') => k a w'
  | (Stop st, w') => (Stop st, w')
  end.

Definition emit (ev : Event) : M unit :=
  λ w, (Done tt, mkWorld (w_fs w) (w_trace w ++ [ev])).
Definition os_Exit {A} (code : Z) : M A := λ w, (Stop (Exited code), w).
Definition return_from_main {A} : M A := os_Exit 0.
Definition get_fs : M FS := λ w, (Done (w_fs w), w).
Definition put_fs (fs : FS) : M unit := λ w, (Done tt, mkWorld fs (w_trace w)).
Definition lift_go {A} (g : go A) : M A := λ w,
  match g with
  | Val a => (Done a, w)
  | Panic msg => (Stop (Panicked msg), w)
  end.

Definition fmt_Println (s : string) : M unit := emit (EvStdout (s +:+ nl)).
Definition fmt_Printf (s : string) : M unit := emit (EvStdout s).
Definition fmt_Fprintf_Stderr (s : string) : M unit := emit (EvStderr s).
Definition log_Printf (s : string) : M unit := emit (EvLog s).

(** [strings.Split(text, "\n")] *)
Fixpoint strings_Split_nl (text : string) : list string :=
  match text with
  | EmptyString => [EmptyString]
  | String c rest =>
      if Ascii.eqb c (ascii_of_nat 10) then EmptyString :: strings_Split_nl rest
      else match strings_Split_nl rest with
           | first :: others => String c first :: others
           | [] => [String c EmptyString]
           end
  end.

Definition stdinLines (P : Proc) : go (Res (list string)) :=
  match Stdin P with
  | Err e => mret (Err ("Error reading stdin: " +:+ e +:+ "."))
  | Ok text =>
      let lines := strings_Split_nl text in
      final ← index lines (len lines - 1);
      if String.eqb final "" then
        lines' ← slice lines 0 (len lines - 1); mret (Ok lines')
      else mret (Ok lines)
  end.

(** The test on a single input line:
    [len(lines[0]) >= 9 && lines[0][:9] == "Shellfish"]. *)
Definition isFailureMarker (line : string) : bool :=
  (9 <=? strlen line)%Z &&
  match strslice line 0 9 with
  | Val t => String.eqb t "Shellfish"
  | Panic _ => false
  end.

Definition takesStdin (mode : string) : bool :=
  String.eqb mode "tree" || String.eqb mode "coord" || String.eqb mode "prof"
  || String.eqb mode "shell" || String.eqb mode "stats".

Fixpoint printLines (out : list string) : M unit :=
  match out with
  | [] => mret tt
  | o :: out' => fmt_Println o ;; printLines out'
  end.

Section Main.

Context (X : Deps) (P : Proc).

(** The block repeated after every failing step of [main]. *)
Definition fatal {A} (mode : string) (e : error) : M A :=
  log_Printf ("Error running mode " +:+ mode +:+ ":" +:+ nl +:+ e +:+ nl) ;;
  fmt_Println "Shellfish terminating." ;;
  os_Exit 1.

Definition helpMode (args : list string) : M unit :=
  match (len args - 2)%Z with
  | 0%Z => fmt_Println (modeDescriptions X)
  | 1%Z =>
      target ← lift_go (index args 2);
      match helpStrings X target with
      | None => fmt_Printf ("I don't recognize the help target '" +:+ target
                            +:+ "'" +:+ nl)
      | Some text => fmt_Println text
      end
  | 2%Z => fmt_Println "The help mode can only take a single argument."
  | _ => mret tt
  end ;;
  os_Exit 0.

(** The switch of [main] that reads standard input for the modes that
    take a catalog. *)
Definition readInput (name : string) : M (list string) :=
  if takesStdin name then
    r ← lift_go (stdinLines P);
    match r with
    | Err e =>
        fmt_Fprintf_Stderr e ;;
        fmt_Println "Shellfish terminating." ;;
        os_Exit 1
    | Ok lines =>
        if (len lines =? 0)%Z then return_from_main
        else
          first ← lift_go (index lines 0);
          if (len lines =? 1)%Z && isFailureMarker first then
            fmt_Println first ;; os_Exit 1
          else mret lines
    end
  else mret [].

Definition main : M unit :=
  let args := Args P in
  (if (len args <=? 1)%Z then
     fmt_Fprintf_Stderr ("I was not supplied with a mode." +:+ nl +:+
                         "For help, type './shellfish help'." +:+ nl) ;;
     os_Exit 1
   else mret tt) ;;
  name ← lift_go (index args 1);
  (if String.eqb name "help" then helpMode args
   else if String.eqb name "version" then
     fmt_Printf ("Shellfish version " +:+ SourceVersion X +:+ nl) ;; os_Exit 0
   else if String.eqb name "hello" then
     fmt_Printf ("Hello back at you! Installation was successful." +:+ nl) ;;
     os_Exit 0
   else mret tt) ;;
  match ModeNames X name with
  | None =>
      fmt_Fprintf_Stderr ("You passed me the mode '" +:+ name +:+
                          "', which I don't recognize." +:+ nl +:+
                          "For help, type './shellfish help'" +:+ nl) ;;
      fmt_Println "Shellfish terminating." ;;
      os_Exit 1
  | Some mode =>
      lines ← readInput name;
      flags ← lift_go (getFlags args);
      c ← lift_go (getConfig P);
      let '(config, ok) := (c : string * bool) in
      fs ← get_fs;
      g ← lift_go (getGlobalConfig X P fs);
      match g with
      | Err e => fatal name e
      | Ok (gConfigName, gConfig) =>
          emit (EvCall "ReadConfig") ;;
          match ReadConfig mode fs (if ok then config else "") with
          | Err e => fatal name e
          | Ok configured =>
              let '(err, fs1) :=
                checkMemoDir X (cmd.MemoDir gConfig) gConfigName fs in
              put_fs fs1 ;;
              match err with
              | Some e => fatal name e
              | None =>
                  let e0 := env.mkEnvironment (cmd.MemoDir gConfig) None None in
                  r ← lift_go (initCatalogs X gConfig e0 fs1);
                  let '(e1, err) := (r : env.Environment * option error) in
                  match err with
                  | Some e => fatal name e
                  | None =>
                      r ← lift_go (initHalos X name gConfig e1 fs1);
                      let '(e2, err) := (r : env.Environment * option error) in
                      match err with
                      | Some e => fatal name e
                      | None =>
                          emit (EvCall "Run") ;;
                          let '(out, fs2) :=
                            Run configured flags gConfig e2 lines fs1 in
                          put_fs fs2 ;;
                          match out with
                          | Err e => fatal name e
                          | Ok out => printLines out
                          end
                      end
                  end
              end
          end
      end
  end.

(** The whole run: the exit status and the final world. *)
Definition run (fs : FS) : Status * World :=
  match main (mkWorld fs []) with
  | (Done _, w) => (Exited 0, w)
  | (Stop st, w) => (st, w)
  end.

End Main.

(** Standard output of a run, chunk by chunk. *)
Fixpoint stdout_of (tr : list Event) : list string :=
  match tr with
  | [] => []
  | EvStdout s :: tr' => s :: stdout_of tr'
  | _ :: tr' => stdout_of tr'
  end.

(** ** Properties of configurations used in the statements *)

(** The fields compared by [configEqual] other than the memoization
    directory agree. *)
Definition AgreeOutsideMemoDir (m c : cmd.GlobalConfig) : Prop :=
  cmd.Version c = cmd.Version m ∧
  cmd.SnapshotFormat c = cmd.SnapshotFormat m ∧
  cmd.SnapshotType c = cmd.SnapshotType m ∧
  cmd.HaloDir c = cmd.HaloDir m ∧
  cmd.HaloType c = cmd.HaloType m ∧
  cmd.TreeDir c = cmd.TreeDir m ∧
  cmd.BlockMins c = cmd.BlockMins m ∧
  cmd.BlockMaxes c = cmd.BlockMaxes m ∧
  cmd.SnapMin c = cmd.SnapMin m ∧
  cmd.SnapMax c = cmd.SnapMax m ∧
  cmd.SnapshotFormatMeanings c = cmd.SnapshotFormatMeanings m ∧
  cmd.HaloPositionUnits c = cmd.HaloPositionUnits m ∧
  cmd.HaloMassUnits c = cmd.HaloMassUnits m ∧
  cmd.HaloValueColumns c = cmd.HaloValueColumns m ∧
  cmd.HaloValueNames c = cmd.HaloValueNames m ∧
  cmd.Endianness c = cmd.Endianness m.

(** All the fields relevant to the cache agree. *)
Definition CacheFieldsAgree (m c : cmd.GlobalConfig) : Prop :=
  AgreeOutsideMemoDir m c ∧ cmd.MemoDir c = cmd.MemoDir m.

(** The tokens of an invocation: [front] and then the trailing run [cfgs]
    of configuration-file tokens. *)
Definition TrailingRun (args front cfgs : list string) : Prop :=
  args = front ++ cfgs ∧
  Forall (λ s, isConfig s = true) cfgs ∧
  (∀ x, last front = Some x → isConfig x = false).

(** A line holds no line feed. *)
Fixpoint oneLine (s : string) : bool :=
  match s with
  | EmptyString => true
  | String c rest => negb (Ascii.eqb c (ascii_of_nat 10)) && oneLine rest
  end.


Definition terminating : string := "Shellfish terminating." +:+ nl.

(** What is asked of a computation of [main] when it stops the process
    with a status other than [0]: the status is [1], and the last chunk on
    standard output is the terminating notice or, when standard input was
    a single failure-marker line, that line written back. *)
Definition MarkedOutput (P : Proc) (tr : list Event) : Prop :=
  ∃ s, last (stdout_of tr) = Some s ∧
       (s = terminating ∨
        ∃ line, stdinLines P = Val (Ok [line]) ∧
                isFailureMarker line = true ∧ s = line +:+ nl).

Definition NoticeOnFailure (P : Proc) {A} (r : Outcome A * World) : Prop :=
  ∀ code, r.1 = Stop (Exited code) → code ≠ 0%Z →
          code = 1%Z ∧ MarkedOutput P (w_trace r.2).

(** The input lines [main] goes on with, for the mode [name]: nothing
    for a mode that does not read standard input; otherwise the lines of
    standard input, when there is one at least and they are not a single
    failure-marker line. *)
Definition InputLines (P : Proc) (name : string) (lines : list string) : Prop :=
  if takesStdin name then
    stdinLines P = Val (Ok lines) ∧ lines ≠ []
    ∧ ∀ line, lines = [line] → isFailureMarker line = false
  else lines = [].

(** The names [main] handles itself, before it looks at the registry. *)
Definition builtinMode (name : string) : bool :=
  String.eqb name "help" || String.eqb name "version" || String.eqb name "hello".

(** ** A small installation, for running the model *)

Module Demo.

Definition config (snapshotType haloType treeType memoDir : string)
    (threads : Z) : cmd.GlobalConfig :=
  {| cmd.Version := "1.0.0";
     cmd.SnapshotFormat := "snapdir_%03d/snap.%d";
     cmd.SnapshotType := snapshotType;
     cmd.HaloDir := "halos";
     cmd.HaloType := haloType;
     cmd.TreeDir := "trees";
     cmd.TreeType := treeType;
     cmd.MemoDir := memoDir;
     cmd.BlockMins := [0; 0; 0]%Z;
     cmd.BlockMaxes := [7; 7; 7]%Z;
     cmd.SnapMin := 0%Z;
     cmd.SnapMax := 100%Z;
     cmd.SnapshotFormatMeanings := ["Snapshot"; "Block"];
     cmd.HaloPositionUnits := "Mpc/h";
     cmd.HaloMassUnits := "Msun/h";
     cmd.HaloValueColumns := [0; 2; 8]%Z;
     cmd.HaloValueNames := ["ID"; "M200m"; "X"];
     cmd.Endianness := "SystemOrder";
     cmd.ValidateFormats := false;
     cmd.Threads := threads |}.

(** Configuration files are recognised by their whole text. *)
Definition parse (text : string) : Res cmd.GlobalConfig :=
  if String.eqb text "text-halos" then
    Ok (config "gotetra" "Text" "consistent-trees" "memo" 1)
  else if String.eqb text "text-halos, 8 threads" then
    Ok (config "gotetra" "Text" "consistent-trees" "memo" 8)
  else if String.eqb text "nil-halos" then
    Ok (config "gotetra" "nil" "consistent-trees" "memo" 1)
  else if String.eqb text "bogus-snapshots" then
    Ok (config "bogus" "Text" "consistent-trees" "memo" 1)
  else Err "cannot parse the configuration".

(** The text before the last slash, or [None] without a slash. *)
Fixpoint beforeLastSlash (p : string) : option string :=
  match p with
  | EmptyString => None
  | String c rest =>
      match beforeLastSlash rest with
      | Some d => Some (String c d)
      | None => if Ascii.eqb c "/"%char then Some EmptyString else None
      end
  end.

Definition dir (p : string) : string :=
  match beforeLastSlash p with
  | Some d => d
  | None => "."
  end.

Definition join (d name : string) : string := d +:+ "/" +:+ name.

(** A mode that accepts every configuration and passes its input on. *)
Definition echo : Mode :=
  {| ReadConfig := λ _ _,
       Ok {| Run := λ _ _ _ lines fs, (Ok lines, fs) |} |}.

Definition modes (name : string) : option Mode :=
  if String.eqb name "id" || takesStdin name then Some echo else None.

Definition activate (reader : string) (e : env.Environment)
  : env.Environment * option error :=
  (env.mkEnvironment (env.MemoDir e) (Some reader) (env.Halos e), None).

Definition deps : Deps :=
  {| ModeNames := modes;
     parseGlobalConfig := parse;
     InitGotetra := λ e _ _ _, activate "gotetra" e;
     InitLGadget2 := λ e _ _ _, activate "LGadget-2" e;
     InitARTIO := λ e _ _ _, activate "ARTIO" e;
     InitTextHalo := λ e _ _,
       (env.mkEnvironment (env.MemoDir e) (env.Snapshots e) (Some "Text"),
        None);
     path_Join := join;
     path_Dir := dir;
     helpStrings := λ _, None;
     modeDescriptions := "The different tools in the Shellfish toolchain";
     SourceVersion := "1.0.0" |}.

Definition unset : string → string := λ _, "".

(** A disk with three configuration files and an empty directory
    [memo]. *)
Definition disk : FS :=
  {| files := list_to_map [("g.config", "text-halos");
                           ("g8.config", "text-halos, 8 threads");
                           ("nil.config", "nil-halos");
                           ("bogus.config", "bogus-snapshots")];
     dirs := {["memo"]} |}.

End Demo.

(** * Theorems *)

(** ** The argument classifier *)

Lemma len_app {A} (l1 l2 : list A) : len (l1 ++ l2) = (len l1 + len l2)%Z.
Proof. unfold len. rewrite length_app. lia. Qed.

Lemma len_cons {A} (a : A) (l : list A) : len (a :: l) = (1 + len l)%Z.
Proof. unfold len. simpl. lia. Qed.

Lemma len_nonneg {A} (l : list A) : (0 ≤ len l)%Z.
Proof. unfold len. lia. Qed.

Lemma configNum_loop_acc args n num k :
  configNum_loop args n (num + k)%Z = (configNum_loop args n num + k)%Z.
Proof.
  revert num. induction n as [|i IH]; intros num; simpl; [done|].
  destruct (args !! i) as [a|]; [|done].
  destruct (isConfig a); [|done].
  replace (num + k + 1)%Z with (num + 1 + k)%Z by lia. apply IH.
Qed.

Lemma configNum_loop_app args more n num :
  n ≤ List.length args →
  configNum_loop (args ++ more) n num = configNum_loop args n num.
Proof.
  revert num. induction n as [|i IH]; intros num Hn; simpl; [done|].
  rewrite lookup_app_l by lia.
  destruct (args !! i) as [a|]; [|done].
  destruct (isConfig a); [|done]. apply IH. lia.
Qed.

Lemma configNum_snoc args a :
  configNum (args ++ [a]) = if isConfig a then (configNum args + 1)%Z else 0%Z.
Proof.
  unfold configNum. rewrite length_app, Nat.add_1_r. simpl.
  rewrite lookup_app_r by lia. rewrite Nat.sub_diag. simpl.
  destruct (isConfig a); [|done].
  rewrite configNum_loop_app by lia.
  apply (configNum_loop_acc args (List.length args) 0 1).
Qed.

Lemma configNum_front front :
  (∀ x, last front = Some x → isConfig x = false) → configNum front = 0%Z.
Proof.
  induction front as [|y front' _] using rev_ind; [done|].
  intros H. rewrite configNum_snoc.
  assert (isConfig y = false) as -> by apply H, last_snoc. done.
Qed.

(** [configNum] counts the trailing run of configuration-file tokens. *)
Lemma configNum_trailing args front cfgs :
  TrailingRun args front cfgs → configNum args = len cfgs.
Proof.
  intros (-> & Hall & Hfront).
  induction cfgs as [|a cfgs IH] using rev_ind.
  - rewrite app_nil_r. by apply configNum_front.
  - apply Forall_app in Hall as [Hall Ha]. rewrite Forall_singleton in Ha.
    rewrite app_assoc, configNum_snoc, Ha. rewrite (IH Hall).
    rewrite len_app. reflexivity.
Qed.

Lemma index_last {A} (l : list A) (a : A) :
  index (l ++ [a]) (len (l ++ [a]) - 1) = Val a.
Proof.
  unfold index. rewrite len_app. pose proof (len_nonneg l).
  change (len [a]) with 1%Z.
  destruct (0 <=? len l + 1 - 1)%Z eqn:E; [|lia].
  replace (Z.to_nat (len l + 1 - 1)) with (List.length l) by (unfold len; lia).
  by rewrite lookup_app_r, Nat.sub_diag by lia.
Qed.

Lemma index_last_but_one {A} (l : list A) (a b : A) :
  index (l ++ [a; b]) (len (l ++ [a; b]) - 2) = Val a.
Proof.
  unfold index. rewrite len_app. pose proof (len_nonneg l).
  change (len [a; b]) with 2%Z.
  destruct (0 <=? len l + 2 - 2)%Z eqn:E; [|lia].
  replace (Z.to_nat (len l + 2 - 2)) with (List.length l) by (unfold len; lia).
  by rewrite lookup_app_r, Nat.sub_diag by lia.
Qed.

(** What [getFlags] returns on an invocation [prog mode flags... cfgs...]:
    the mode name followed by the flags without the last one. *)
Lemma getFlags_shape prog mode flags cfgs :
  TrailingRun (prog :: mode :: flags ++ cfgs) (prog :: mode :: flags) cfgs →
  getFlags (prog :: mode :: flags ++ cfgs) = Val (removelast (mode :: flags)).
Proof.
  intros Hrun. unfold getFlags, slice.
  rewrite (configNum_trailing _ _ _ Hrun).
  rewrite !len_cons, len_app.
  pose proof (len_nonneg flags). pose proof (len_nonneg cfgs).
  destruct (_ && _) eqn:E.
  - f_equal. simpl drop.
    replace (Z.to_nat (1 + (1 + (len flags + len cfgs)) - 1 - len cfgs - 1))
      with (List.length flags) by (unfold len; lia).
    change (mode :: flags ++ cfgs) with ((mode :: flags) ++ cfgs).
    rewrite take_app_le by (simpl; lia).
    clear. revert mode. induction flags as [|f flags IH]; intros mode; [done|].
    simpl. f_equal. apply IH.
  - apply andb_false_iff in E as [E|E]; [apply andb_false_iff in E as [E|E]|];
      lia.
Qed.

(** C1: on the invocation shown in the help text of the program,
    [shellfish id --IDs "0, 1, 2, 3, 4, 5" --IDType "M200m"], [getFlags]
    returns the mode name [id] as its first element and leaves out the last
    flag token [M200m]; the tokens strictly between the mode name and the
    (empty) trailing run of configuration files are not what it returns. *)
Theorem getFlags_help_text_invocation :
  getFlags ["shellfish"; "id"; "--IDs"; "0, 1, 2, 3, 4, 5"; "--IDType"; "M200m"]
  = Val ["id"; "--IDs"; "0, 1, 2, 3, 4, 5"; "--IDType"]
  ∧ getFlags ["shellfish"; "id"; "--IDs"; "0, 1, 2, 3, 4, 5"; "--IDType"; "M200m"]
    ≠ Val ["--IDs"; "0, 1, 2, 3, 4, 5"; "--IDType"; "M200m"]
  ∧ getFlags ["shellfish"; "id"; "--IDs"; "0"; "g.config"] = Val ["id"; "--IDs"].
Proof. split; [reflexivity | split; [discriminate | reflexivity]]. Qed.

(** ** The configuration resolvers *)

Lemma loadGlobalConfig_Ok X fs name c :
  GlobalConfig_ReadConfig X fs name = Ok c →
  loadGlobalConfig X fs name = Ok (name, c).
Proof. unfold loadGlobalConfig. by intros ->. Qed.

Lemma loadGlobalConfig_Err X fs name e :
  GlobalConfig_ReadConfig X fs name = Err e →
  loadGlobalConfig X fs name = Err e.
Proof. unfold loadGlobalConfig. by intros ->. Qed.

Lemma eqb_empty_false s : s ≠ "" → String.eqb s "" = false.
Proof. intros H. by apply String.eqb_neq. Qed.



(** ** The memoization guard *)

Lemma elemsEqual_from_spec {A} (eqb : A → A → bool) (xs ys : list A) n i :
  (∀ x y, eqb x y = true ↔ x = y) →
  i + n = List.length xs → List.length xs = List.length ys →
  elemsEqual_from eqb xs ys i n = true ↔ drop i xs = drop i ys.
Proof.
  intros Heqb. revert i. induction n as [|n IH]; intros i Hi Hlen; simpl.
  - rewrite !drop_ge by lia. done.
  - destruct (lookup_lt_is_Some_2 xs i) as [x Hx]; [lia|].
    destruct (lookup_lt_is_Some_2 ys i) as [y Hy]; [lia|].
    rewrite Hx, Hy, (drop_S _ _ _ Hx), (drop_S _ _ _ Hy).
    destruct (eqb x y) eqn:E; simpl.
    + apply Heqb in E as ->. rewrite IH by lia. split; [by intros ->|].
      by intros [= ->].
    + split; [done|]. intros [= Hxy _]. apply Heqb in Hxy. congruence.
Qed.

Lemma int64sEqual_spec xs ys : int64sEqual xs ys = true ↔ xs = ys.
Proof.
  unfold int64sEqual, len.
  destruct (Z.of_nat (List.length xs) =? Z.of_nat (List.length ys))%Z eqn:E;
    simpl.
  - apply Z.eqb_eq in E.
    rewrite (elemsEqual_from_spec Z.eqb xs ys (List.length xs) 0);
      [done | apply Z.eqb_eq | lia | lia].
  - apply Z.eqb_neq in E. split; [done|]. intros ->. lia.
Qed.

Lemma stringsEqual_spec xs ys : stringsEqual xs ys = true ↔ xs = ys.
Proof.
  unfold stringsEqual, len.
  destruct (Z.of_nat (List.length xs) =? Z.of_nat (List.length ys))%Z eqn:E;
    simpl.
  - apply Z.eqb_eq in E.
    rewrite (elemsEqual_from_spec String.eqb xs ys (List.length xs) 0);
      [done | apply String.eqb_eq | lia | lia].
  - apply Z.eqb_neq in E. split; [done|]. intros ->. lia.
Qed.

(** [configEqual] holds exactly when the seventeen compared fields
    agree. *)
Lemma configEqual_spec m c : configEqual m c = true ↔ CacheFieldsAgree m c.
Proof.
  unfold configEqual, CacheFieldsAgree, AgreeOutsideMemoDir.
  rewrite !andb_true_iff, !String.eqb_eq, !Z.eqb_eq, !int64sEqual_spec,
    !stringsEqual_spec.
  tauto.
Qed.

Lemma CacheFieldsAgree_refl c : CacheFieldsAgree c c.
Proof. repeat split. Qed.

(** C7: [configEqual] does compare the memoization directory: two
    configurations compare equal exactly when they agree on the sixteen
    other compared fields and on [MemoDir]. *)
Theorem configEqual_compares_MemoDir m c :
  configEqual m c = true ↔
  AgreeOutsideMemoDir m c ∧ cmd.MemoDir c = cmd.MemoDir m.
Proof. apply configEqual_spec. Qed.

(** C7, as stated, fails: two configurations that differ in the
    memoization directory only do not compare equal. *)
Lemma configEqual_differs_on_MemoDir :
  AgreeOutsideMemoDir
    (Demo.config "gotetra" "Text" "consistent-trees" "memo" 1)
    (Demo.config "gotetra" "Text" "consistent-trees" "./memo" 1)
  ∧ configEqual
      (Demo.config "gotetra" "Text" "consistent-trees" "memo" 1)
      (Demo.config "gotetra" "Text" "consistent-trees" "./memo" 1) = false.
Proof. split; [repeat split | reflexivity]. Qed.

Lemma os_Stat_ok_false fs p :
  os_Stat_ok fs p = false → files fs !! p = None ∧ p ∉ dirs fs.
Proof.
  unfold os_Stat_ok. intros H. apply orb_false_iff in H as [H1 H2].
  apply bool_decide_eq_false in H1, H2. split; [|done].
  destruct (files fs !! p) eqn:E; [|done]. destruct H1. eauto.
Qed.

Lemma os_Stat_ok_file fs p text :
  files fs !! p = Some text → os_Stat_ok fs p = true.
Proof.
  intros H. unfold os_Stat_ok. apply orb_true_iff. left.
  apply bool_decide_eq_true. eauto.
Qed.

Lemma ReadConfig_Ok_inv X fs name c :
  GlobalConfig_ReadConfig X fs name = Ok c →
  ∃ text, files fs !! name = Some text ∧ parseGlobalConfig X text = Ok c.
Proof.
  unfold GlobalConfig_ReadConfig. destruct (files fs !! name); [eauto|done].
Qed.

(** Seeding: on a directory without snapshot, a successful [checkMemoDir]
    leaves a snapshot with the text of the configuration file. *)
Lemma checkMemoDir_seeds X memoDir configFile fs fs' text :
  os_Stat_ok fs (memoConfigFile X memoDir) = false →
  files fs !! configFile = Some text →
  checkMemoDir X memoDir configFile fs = (None, fs') →
  fs' = mkFS (<[memoConfigFile X memoDir := text]> (files fs)) (dirs fs).
Proof.
  intros Hstat Hfile. unfold checkMemoDir, copyFile. rewrite Hstat. simpl.
  apply os_Stat_ok_false in Hstat as [Hnone _].
  assert (memoConfigFile X memoDir ≠ configFile) as Hne by congruence.
  unfold os_Open_ok. rewrite (os_Stat_ok_file _ _ _ Hfile). simpl.
  destruct (os_Create_ok X fs _); simpl; [|done].
  rewrite lookup_insert_ne, Hfile by done.
  intros [= <-]. by rewrite insert_insert_eq.
Qed.


(** The fields that [configEqual] does not read ([TreeType],
    [ValidateFormats], [Threads]) have no influence on the agreement. *)
Lemma CacheFieldsAgree_other_fields c treeType validate threads :
  CacheFieldsAgree
    (cmd.mkGlobalConfig (cmd.Version c) (cmd.SnapshotFormat c)
       (cmd.SnapshotType c) (cmd.HaloDir c) (cmd.HaloType c) (cmd.TreeDir c)
       treeType (cmd.MemoDir c) (cmd.BlockMins c) (cmd.BlockMaxes c)
       (cmd.SnapMin c) (cmd.SnapMax c) (cmd.SnapshotFormatMeanings c)
       (cmd.HaloPositionUnits c) (cmd.HaloMassUnits c)
       (cmd.HaloValueColumns c) (cmd.HaloValueNames c) (cmd.Endianness c)
       validate threads)
    c.
Proof. repeat split. Qed.





(** ** The backend initialisers *)

Lemma eqb_false_of_ne (s t : string) : s ≠ t → String.eqb s t = false.
Proof. apply String.eqb_neq. Qed.

(** [initHalos] by cases. *)
Lemma initHalos_cases X mode g e fs :
  initHalos X mode g e fs =
  if String.eqb mode "shell" || String.eqb mode "stats" || String.eqb mode "prof"
  then Val (e, None)
  else if String.eqb (cmd.HaloType g) "nil" then
    Val (e, Some ("You may not use nil as a HaloType for the mode '" +:+ mode
                  +:+ ".'" +:+ nl))
  else if String.eqb (cmd.HaloType g) "Text" then Val (InitTextHalo X e g fs)
  else if String.eqb (cmd.TreeType g) "nil" then
    Val (e, Some ("You may not use nil as a TreeType for the mode '" +:+ mode
                  +:+ ".'" +:+ nl))
  else Panic "Impossible".
Proof.
  unfold initHalos, initHalos_body, Stmt.seq, Stmt.when, Stmt.ret,
    Stmt.at_point, Stmt.skip.
  destruct (_ || _); [reflexivity|].
  destruct (String.eqb (cmd.HaloType g) "nil"); [reflexivity|].
  destruct (String.eqb (cmd.HaloType g) "Text"); [reflexivity|].
  destruct (String.eqb (cmd.TreeType g) "nil"); reflexivity.
Qed.

(** C10: whatever the mode and the configuration, [initHalos] never
    reaches the test on the tree type that follows the return of the
    [Text] case. *)
Theorem initHalos_tree_check_unreachable X mode g e fs :
  AtTextTreeCheck ∉ initHalos_visited X mode g e fs.
Proof.
  unfold initHalos_visited, initHalos_body, Stmt.seq, Stmt.when, Stmt.ret,
    Stmt.at_point, Stmt.skip.
  destruct (_ || _); simpl; [by rewrite list_elem_of_singleton|].
  destruct (String.eqb (cmd.HaloType g) "nil"); simpl;
    [by rewrite list_elem_of_singleton|].
  destruct (String.eqb (cmd.HaloType g) "Text"); simpl;
    [by rewrite list_elem_of_singleton|].
  destruct (String.eqb (cmd.TreeType g) "nil"); simpl;
    by rewrite list_elem_of_singleton.
Qed.

(** The other program points of [initHalos] are all reached on some
    input. *)
Lemma initHalos_other_points_reached :
  let e := env.mkEnvironment "memo" None None in
  initHalos_visited Demo.deps "shell"
    (Demo.config "gotetra" "Text" "consistent-trees" "memo" 1) e Demo.disk
  = [AtExcludedMode]
  ∧ initHalos_visited Demo.deps "id"
      (Demo.config "gotetra" "nil" "consistent-trees" "memo" 1) e Demo.disk
    = [AtHaloNil]
  ∧ initHalos_visited Demo.deps "id"
      (Demo.config "gotetra" "Text" "nil" "memo" 1) e Demo.disk
    = [AtHaloText]
  ∧ initHalos_visited Demo.deps "id"
      (Demo.config "gotetra" "Rockstar" "nil" "memo" 1) e Demo.disk
    = [AtTreeNil]
  ∧ initHalos_visited Demo.deps "id"
      (Demo.config "gotetra" "Rockstar" "consistent-trees" "memo" 1) e Demo.disk
    = [AtImpossible].
Proof. cbv zeta. split; [|split; [|split; [|split]]]; reflexivity. Qed.





(** ** The process *)

Lemma stdout_of_app tr1 tr2 :
  stdout_of (tr1 ++ tr2) = stdout_of tr1 ++ stdout_of tr2.
Proof.
  induction tr1 as [|ev tr1 IH]; [done|].
  destruct ev; simpl; by rewrite IH.
Qed.

Section NoticeOnFailure.

Context (P : Proc).

Lemma notice_bind {A B} (m : M A) (k : A → M B) w :
  NoticeOnFailure P (m w) → (∀ a w', NoticeOnFailure P (k a w')) →
  NoticeOnFailure P ((m ≫= k) w).
Proof.
  unfold mbind, M_bind. intros Hm Hk.
  destruct (m w) as [[a|st] w'] eqn:E; [apply Hk|].
  intros code [= ->] Hcode. by apply (Hm code).
Qed.

Lemma notice_Done {A} (a : A) w : NoticeOnFailure P (Done a, w).
Proof. intros code [=]. Qed.

Lemma notice_ret {A} (a : A) w : NoticeOnFailure P (mret (M:=M) a w).
Proof. apply notice_Done. Qed.

Lemma notice_emit ev w : NoticeOnFailure P (emit ev w).
Proof. apply notice_Done. Qed.

Lemma notice_get_fs w : NoticeOnFailure P (get_fs w).
Proof. apply notice_Done. Qed.

Lemma notice_put_fs fs w : NoticeOnFailure P (put_fs fs w).
Proof. apply notice_Done. Qed.

Lemma notice_lift_go {A} (g : go A) w : NoticeOnFailure P (lift_go g w).
Proof. destruct g; intros code [=]. Qed.

Lemma notice_exit_0 {A} w : NoticeOnFailure P (os_Exit (A:=A) 0 w).
Proof. intros code [= <-]. done. Qed.

Lemma notice_println_exit_1 {A} s w :
  s = "Shellfish terminating."
  ∨ (stdinLines P = Val (Ok [s]) ∧ isFailureMarker s = true) →
  NoticeOnFailure P ((fmt_Println s ;; os_Exit (A:=A) 1) w).
Proof.
  intros Hs code. unfold mbind, M_bind, fmt_Println, emit, os_Exit. simpl.
  intros [= <-] _. split; [done|].
  exists (s +:+ nl). rewrite stdout_of_app. simpl. rewrite last_snoc.
  split; [done|]. destruct Hs as [-> | [Hin Hs]]; [by left | right; eauto].
Qed.

Lemma notice_fatal {A} mode err w :
  NoticeOnFailure P (fatal (A:=A) mode err w).
Proof.
  unfold fatal. apply notice_bind; [apply notice_emit|]. intros _ w'.
  apply notice_println_exit_1. by left.
Qed.

Lemma notice_printLines out w : NoticeOnFailure P (printLines out w).
Proof.
  revert w. induction out as [|o out IH]; intros w; simpl.
  - apply notice_ret.
  - apply notice_bind; [apply notice_emit | intros _ w'; apply IH].
Qed.

End NoticeOnFailure.

Ltac notice_step :=
  first
    [ apply notice_fatal | apply notice_printLines | apply notice_ret
    | apply notice_emit | apply notice_lift_go | apply notice_exit_0
    | apply notice_get_fs | apply notice_put_fs | apply notice_Done
    | apply notice_println_exit_1; left; reflexivity
    | apply notice_bind; [|intros ? ?]
    | progress cbv zeta
    | match goal with
      | |- NoticeOnFailure _ ((if ?b then _ else _) _) => destruct b eqn:?
      | |- NoticeOnFailure _ (match ?x with _ => _ end _) => destruct x eqn:?
      end ].

Lemma notice_helpMode P X args w : NoticeOnFailure P (helpMode X args w).
Proof. unfold helpMode. repeat notice_step. Qed.

Lemma len_1_inv {A} (l : list A) : len l = 1%Z → ∃ a, l = [a].
Proof.
  destruct l as [|a [|b l]]; unfold len; simpl; intros H; [lia | eauto | lia].
Qed.

Lemma notice_readInput P name w : NoticeOnFailure P (readInput P name w).
Proof.
  unfold readInput. destruct (takesStdin name); [|apply notice_ret].
  destruct (stdinLines P) as [[lines|e]|msg] eqn:Hin;
    [| repeat notice_step | intros code [=]].
  change (NoticeOnFailure P
    ((if (len lines =? 0)%Z then return_from_main
      else first ← lift_go (index lines 0);
           if (len lines =? 1)%Z && isFailureMarker first
           then fmt_Println first ;; os_Exit 1 else mret lines) w)).
  destruct (len lines =? 0)%Z; [apply notice_exit_0|].
  destruct ((len lines =? 1)%Z) eqn:Hlen.
  - apply Z.eqb_eq, len_1_inv in Hlen as [line ->].
    change (NoticeOnFailure P
      ((if isFailureMarker line then fmt_Println line ;; os_Exit 1
        else mret [line]) w)).
    destruct (isFailureMarker line) eqn:Hmark; [|apply notice_ret].
    apply notice_println_exit_1. by right.
  - apply notice_bind; [apply notice_lift_go|]. intros first w'.
    apply notice_ret.
Qed.

Lemma notice_main X P w :
  (1 < len (Args P))%Z → NoticeOnFailure P (main X P w).
Proof.
  intros Hargs. unfold main. cbv zeta.
  destruct (len (Args P) <=? 1)%Z eqn:E; [lia|].
  apply notice_bind; [apply notice_ret|]. intros _ w1.
  apply notice_bind; [apply notice_lift_go|]. intros name w2.
  apply notice_bind.
  { destruct (String.eqb name "help"); [apply notice_helpMode|].
    repeat notice_step. }
  intros _ w3. destruct (ModeNames X name) as [mode|]; [|repeat notice_step].
  apply notice_bind; [apply notice_readInput|]. intros lines w4.
  repeat notice_step.
Qed.




(** ** Standard input and the failure marker *)

Lemma append_String c s t : String c s +:+ t = String c (s +:+ t).
Proof. reflexivity. Qed.

Lemma append_empty t : "" +:+ t = t.
Proof. reflexivity. Qed.

Lemma strings_Split_nl_oneLine s :
  oneLine s = true → strings_Split_nl s = [s].
Proof.
  induction s as [|c s IH]; simpl; [done|].
  intros [Hc Hs]%andb_true_iff. apply negb_true_iff in Hc.
  by rewrite Hc, (IH Hs).
Qed.

Lemma strings_Split_nl_oneLine_nl s :
  oneLine s = true → strings_Split_nl (s +:+ nl) = [s; ""].
Proof.
  induction s as [|c s IH]; [done|].
  rewrite append_String. simpl.
  intros [Hc Hs]%andb_true_iff. apply negb_true_iff in Hc.
  by rewrite Hc, (IH Hs).
Qed.

(** Standard input that consists of one non-empty line, with or without
    the final line feed, is read as that line. *)
Lemma stdinLines_single P text line :
  Stdin P = Ok text →
  text = line ∨ text = line +:+ nl →
  oneLine line = true → line ≠ "" →
  stdinLines P = Val (Ok [line]).
Proof.
  intros Hin Htext Hone Hne. unfold stdinLines. rewrite Hin.
  destruct Htext as [-> | ->].
  - rewrite (strings_Split_nl_oneLine _ Hone).
    change (index [line] (len [line] - 1)) with (Val (A:=string) line).
    change (Val line ≫= ?k) with (k line). cbv beta.
    by rewrite (eqb_empty_false _ Hne).
  - by rewrite (strings_Split_nl_oneLine_nl _ Hone).
Qed.

Lemma substring_0_0 s : substring 0 0 s = "".
Proof. by destruct s. Qed.

Lemma isFailureMarker_prefix tail : isFailureMarker ("Shellfish" +:+ tail) = true.
Proof.
  rewrite !append_String, append_empty.
  unfold isFailureMarker, strslice, strlen. simpl String.length.
  assert ((9 <=? Z.of_nat (9 + String.length tail))%Z = true) as E
    by (apply Z.leb_le; lia).
  simpl Nat.add in E. rewrite E. simpl.
  by rewrite substring_0_0.
Qed.

Lemma takesStdin_inv name :
  takesStdin name = true →
  name = "tree" ∨ name = "coord" ∨ name = "prof" ∨ name = "shell"
  ∨ name = "stats".
Proof.
  unfold takesStdin. rewrite !orb_true_iff, !String.eqb_eq. tauto.
Qed.

(** [main] on a single failure-marker line, for a mode that reads
    standard input. *)
Lemma main_on_failure_marker X P prog name rest mode line w :
  Args P = prog :: name :: rest →
  takesStdin name = true →
  ModeNames X name = Some mode →
  stdinLines P = Val (Ok [line]) →
  isFailureMarker line = true →
  main X P w
  = (Stop (Exited 1), mkWorld (w_fs w) (w_trace w ++ [EvStdout (line +:+ nl)])).
Proof.
  intros Hargs Htakes Hmode Hin Hmark.
  assert (String.eqb name "help" = false ∧ String.eqb name "version" = false
          ∧ String.eqb name "hello" = false) as (Hh & Hv & Hl).
  { apply takesStdin_inv in Htakes as [-> | [-> | [-> | [-> | ->]]]]; done. }
  unfold main, readInput. rewrite Hargs. cbv zeta.
  assert ((len (prog :: name :: rest) <=? 1)%Z = false) as ->.
  { rewrite !len_cons. pose proof (len_nonneg rest). lia. }
  assert (index (prog :: name :: rest) 1 = Val name) as -> by done.
  unfold mbind, M_bind, mret, M_ret, lift_go. cbv beta iota.
  rewrite Hh, Hv, Hl. cbv beta iota.
  rewrite Hmode, Htakes, Hin. cbv beta iota.
  change (len [line] =? 0)%Z with false.
  change (index [line] 0) with (Val (A:=string) line).
  change (len [line] =? 1)%Z with true. cbv beta iota.
  rewrite Hmark. reflexivity.
Qed.

(** C9: for a registered mode that reads standard input ([tree],
    [coord], [prof], [shell], [stats]), when standard input is one line
    that begins with [Shellfish], with or without its line feed, the
    process writes that line back on standard output and exits with
    status [1].  The trace holds nothing else: the operations of the mode
    ([ReadConfig], [Run]) are not called, and the file system is as it
    was. *)
Theorem failure_marker_short_circuit X P fs prog name rest mode text line tail :
  Args P = prog :: name :: rest →
  takesStdin name = true →
  ModeNames X name = Some mode →
  Stdin P = Ok text →
  text = line ∨ text = line +:+ nl →
  oneLine line = true →
  line = "Shellfish" +:+ tail →
  run X P fs = (Exited 1, mkWorld fs [EvStdout (line +:+ nl)]).
Proof.
  intros Hargs Htakes Hmode Hin Htext Hone Hline.
  assert (line ≠ "") as Hne by (rewrite Hline; discriminate).
  pose proof (stdinLines_single P text line Hin Htext Hone Hne) as Hlines.
  assert (isFailureMarker line = true) as Hmark
    by (rewrite Hline; apply isFailureMarker_prefix).
  unfold run.
  by rewrite (main_on_failure_marker X P prog name rest mode line _
                Hargs Htakes Hmode Hlines Hmark).
Qed.

Lemma failure_marker_short_circuit_witness :
  run Demo.deps
    (mkProc ["shellfish"; "shell"] Demo.unset
       (Ok ("Shellfish terminating." +:+ nl)))
    Demo.disk
  = (Exited 1, mkWorld Demo.disk [EvStdout ("Shellfish terminating." +:+ nl)]).
Proof.
  refine (failure_marker_short_circuit Demo.deps
    (mkProc ["shellfish"; "shell"] Demo.unset
       (Ok ("Shellfish terminating." +:+ nl)))
    Demo.disk "shellfish" "shell" [] Demo.echo
    ("Shellfish terminating." +:+ nl) "Shellfish terminating." " terminating."
    _ _ _ _ _ _ _); try reflexivity.
  right. reflexivity.
Defined.

(** ** The resolvers on the demonstration installation *)

Lemma TrailingRun_intro front cfgs :
  forallb isConfig cfgs = true →
  match last front with Some x => isConfig x | None => false end = false →
  TrailingRun (front ++ cfgs) front cfgs.
Proof.
  intros Hcfgs Hfront. split; [done|]. split.
  - apply Forall_forall. intros s Hs%list_elem_of_In.
    by apply (proj1 (forallb_forall _ _) Hcfgs).
  - intros x Hx. by rewrite Hx in Hfront.
Defined.



(** * Further properties of the code *)

(** ** [isConfig] and [configNum] *)

Lemma length_append s t :
  String.length (s +:+ t) = String.length s + String.length t.
Proof.
  induction s as [|c s IH]; [done|]. rewrite append_String. simpl. by rewrite IH.
Qed.

Lemma substring_skip p n t :
  substring (String.length p) n (p +:+ t) = substring 0 n t.
Proof. induction p as [|c p IH]; [done|]. rewrite append_String. apply IH. Qed.

Lemma substring_all t : substring 0 (String.length t) t = t.
Proof. induction t as [|c t IH]; [done|]. simpl. by rewrite IH. Qed.

Lemma substring_split s n m :
  n + m = String.length s → s = substring 0 n s +:+ substring n m s.
Proof.
  revert n. induction s as [|c s IH]; intros n Hlen; simpl in Hlen.
  - assert (n = 0) as -> by lia. assert (m = 0) as -> by lia. done.
  - destruct n as [|n].
    + simpl in Hlen. subst m. simpl. by rewrite substring_all.
    + simpl. rewrite append_String. f_equal. apply IH. lia.
Qed.

(** [isConfig] is the test for the suffix [.config]; the token [.config]
    alone passes it. *)
Theorem isConfig_iff_suffix s :
  isConfig s = true ↔ ∃ stem, s = stem +:+ ".config".
Proof.
  unfold isConfig, strslice, strlen. split.
  - intros [Hlen Hsub]%andb_true_iff. apply Z.leb_le in Hlen.
    destruct (_ && _) eqn:E in Hsub; [|done].
    apply String.eqb_eq in Hsub.
    exists (substring 0 (String.length s - 7) s).
    rewrite <- Hsub.
    replace (Z.to_nat (Z.of_nat (String.length s) - 7))
      with (String.length s - 7) by lia.
    replace (Z.to_nat (Z.of_nat (String.length s)
                       - (Z.of_nat (String.length s) - 7))) with 7 by lia.
    apply substring_split. lia.
  - intros [stem ->]. rewrite length_append. simpl String.length.
    apply andb_true_iff. split; [apply Z.leb_le; lia|].
    destruct (_ && _) eqn:E.
    + replace (Z.to_nat (Z.of_nat (String.length stem + 7) - 7))
        with (String.length stem) by lia.
      replace (Z.to_nat (Z.of_nat (String.length stem + 7)
                         - (Z.of_nat (String.length stem + 7) - 7)))
        with 7 by lia.
      by rewrite substring_skip.
    + exfalso. apply andb_false_iff in E as [E|E];
        [apply andb_false_iff in E as [E|E]|]; apply Z.leb_gt in E; lia.
Qed.

Lemma configNum_loop_bounds args n num :
  (num ≤ configNum_loop args n num ≤ num + Z.of_nat n)%Z.
Proof.
  revert num. induction n as [|i IH]; intros num; simpl; [lia|].
  destruct (args !! i) as [a|]; [|lia].
  destruct (isConfig a); [|lia]. specialize (IH (num + 1)%Z). lia.
Qed.

Lemma configNum_bounds args : (0 ≤ configNum args ≤ len args)%Z.
Proof. apply (configNum_loop_bounds args (List.length args) 0). Qed.

(** Every token list splits into a front and a trailing run of
    configuration-file tokens. *)
Lemma TrailingRun_exists args : ∃ front cfgs, TrailingRun args front cfgs.
Proof.
  induction args as [|a args IH] using rev_ind.
  - exists [], []. split; [done|]. split; [constructor | done].
  - destruct (isConfig a) eqn:Ha.
    + destruct IH as (front & cfgs & -> & Hall & Hfront).
      exists front, (cfgs ++ [a]). split; [by rewrite app_assoc|].
      split; [|done]. apply Forall_app. split; [done|].
      by apply Forall_singleton.
    + exists (args ++ [a]), []. split; [by rewrite app_nil_r|].
      split; [constructor|]. intros x Hx. rewrite last_snoc in Hx.
      by injection Hx as <-.
Qed.

(** [configNum] is the length of the longest run of configuration-file
    tokens at the end of the arguments: it lies between [0] and the
    number of arguments, and it is not capped at two. *)
Theorem configNum_counts_trailing_run args :
  (0 ≤ configNum args ≤ len args)%Z
  ∧ ∃ front cfgs, TrailingRun args front cfgs ∧ configNum args = len cfgs.
Proof.
  split; [apply configNum_bounds|].
  destruct (TrailingRun_exists args) as (front & cfgs & Hrun).
  exists front, cfgs. split; [done|]. by apply (configNum_trailing _ front).
Qed.

Lemma getFlags_shape_witness :
  getFlags ["shellfish"; "id"; "--IDs"; "0"; "--IDType"; "M200m"; "g.config"]
  = Val ["id"; "--IDs"; "0"; "--IDType"].
Proof.
  exact (getFlags_shape "shellfish" "id" ["--IDs"; "0"; "--IDType"; "M200m"]
           ["g.config"]
           (TrailingRun_intro
              ["shellfish"; "id"; "--IDs"; "0"; "--IDType"; "M200m"]
              ["g.config"] eq_refl eq_refl)).
Defined.

(** A token that is not a configuration file bounds the count from
    behind. *)
Lemma configNum_after_plain front x rest :
  isConfig x = false → (configNum (front ++ x :: rest) ≤ len rest)%Z.
Proof.
  intros Hx. destruct (TrailingRun_exists rest) as (rf & rc & -> & Hall & Hlast).
  rewrite (configNum_trailing (front ++ x :: rf ++ rc) (front ++ x :: rf) rc).
  - rewrite len_app. pose proof (len_nonneg rf). lia.
  - split; [by rewrite <- app_assoc|]. split; [done|].
    intros y Hy. destruct rf as [|r rf] using rev_ind.
    + rewrite last_snoc in Hy. by injection Hy as <-.
    + apply Hlast. rewrite app_comm_cons, app_assoc, last_snoc in Hy.
      by rewrite last_snoc.
Qed.

(** [getFlags] is defined exactly when two tokens at least precede the
    trailing configuration files; it then returns as many tokens as lie
    between the mode name and those files.  With fewer tokens in front the
    slice expression panics. *)
Theorem getFlags_defined_iff args :
  ((configNum args + 2 ≤ len args)%Z →
   ∃ flags, getFlags args = Val flags
            ∧ len flags = (len args - 2 - configNum args)%Z)
  ∧ ((len args < configNum args + 2)%Z →
     getFlags args = Panic "slice bounds out of range").
Proof.
  unfold getFlags, slice. pose proof (configNum_bounds args) as Hb. split.
  - intros H. destruct (_ && _) eqn:E.
    + eexists. split; [done|]. unfold len in *.
      rewrite length_take, length_drop. lia.
    + apply andb_false_iff in E as [E|E];
        [apply andb_false_iff in E as [E|E]|]; lia.
  - intros H. destruct (_ && _) eqn:E; [|done].
    apply andb_true_iff in E as [E _]. apply andb_true_iff in E as [_ E]. lia.
Qed.

Lemma getFlags_defined_iff_witness :
  (∃ flags, getFlags ["shellfish"; "id"; "g.config"] = Val flags
            ∧ len flags = 0%Z)
  ∧ getFlags ["g.config"; "id.config"] = Panic "slice bounds out of range".
Proof.
  split.
  - exact (proj1 (getFlags_defined_iff ["shellfish"; "id"; "g.config"])
             ltac:(vm_compute; discriminate)).
  - exact (proj2 (getFlags_defined_iff ["g.config"; "id.config"])
             ltac:(vm_compute; reflexivity)).
Defined.

(** When the mode name is not itself a configuration-file token,
    [getFlags] does not panic, whatever follows the mode name. *)
Theorem getFlags_after_mode_name prog mode rest :
  isConfig mode = false → ∃ flags, getFlags (prog :: mode :: rest) = Val flags.
Proof.
  intros Hmode.
  pose proof (configNum_after_plain [prog] mode rest Hmode) as H.
  pose proof (configNum_bounds (prog :: mode :: rest)) as Hb.
  simpl in H. unfold getFlags, slice. rewrite !len_cons in *.
  destruct (_ && _) eqn:E; [eauto|]. exfalso.
  apply andb_false_iff in E as [E|E];
    [apply andb_false_iff in E as [E|E]|]; apply Z.leb_gt in E; lia.
Qed.

Lemma getFlags_after_mode_name_witness :
  ∃ flags, getFlags ["shellfish"; "shell"; "g.config"; "s.config"] = Val flags.
Proof.
  exact (getFlags_after_mode_name "shellfish" "shell" ["g.config"; "s.config"]
           eq_refl).
Defined.

(** ** The resolvers *)

Lemma configNum_ge_1 args :
  (1 ≤ configNum args)%Z → ∃ front c, args = front ++ [c] ∧ isConfig c = true.
Proof.
  intros H. destruct (TrailingRun_exists args) as (front & cfgs & Hrun).
  rewrite (configNum_trailing _ _ _ Hrun) in H.
  destruct Hrun as (-> & Hall & _).
  destruct cfgs as [|c cfgs _] using rev_ind; [unfold len in H; simpl in H; lia|].
  exists (front ++ cfgs), c. split; [by rewrite app_assoc|].
  apply Forall_app in Hall as [_ Hc]. by rewrite Forall_singleton in Hc.
Qed.

Lemma configNum_ge_2 args :
  (2 ≤ configNum args)%Z →
  ∃ front g c, args = front ++ [g; c] ∧ isConfig g = true ∧ isConfig c = true.
Proof.
  intros H. destruct (configNum_ge_1 args) as (front & c & -> & Hc); [lia|].
  rewrite configNum_snoc, Hc in H.
  destruct (configNum_ge_1 front) as (front' & g & -> & Hg); [lia|].
  exists front', g, c. by rewrite <- app_assoc.
Qed.

Lemma loadGlobalConfig_inv X fs name r cfg :
  loadGlobalConfig X fs name = Ok (r, cfg) →
  r = name ∧ GlobalConfig_ReadConfig X fs name = Ok cfg.
Proof.
  unfold loadGlobalConfig.
  destruct (GlobalConfig_ReadConfig X fs name); [|done]. by intros [= <- <-].
Qed.

Lemma getGlobalConfig_total X P fs : ∃ r, getGlobalConfig X P fs = Val r.
Proof.
  unfold getGlobalConfig. cbv zeta.
  destruct (negb _); [destruct (_ <? _)%Z; eauto|].
  destruct (configNum (Args P)) as [|p|p] eqn:E; [eauto| |eauto].
  destruct p as [p|p|]; [eauto| |].
  - destruct p; [eauto|eauto|].
    destruct (configNum_ge_2 (Args P)) as (front & g & c & -> & _); [lia|].
    rewrite index_last_but_one. eauto.
  - destruct (configNum_ge_1 (Args P)) as (front & c & -> & _); [lia|].
    rewrite index_last. eauto.
Qed.

Lemma getConfig_total P : ∃ r, getConfig P = Val r.
Proof.
  unfold getConfig. cbv zeta.
  destruct (String.eqb (Getenv P "SHELLFISH_GLOBAL_CONFIG") "");
    destruct (configNum (Args P) =? 1)%Z eqn:E1;
    destruct (configNum (Args P) =? 2)%Z eqn:E2; simpl; eauto;
    (destruct (configNum_ge_1 (Args P)) as (front & c & -> & _);
     [lia | rewrite index_last; eauto]).
Qed.

(** The index expressions of the two resolvers are always in range:
    neither [getGlobalConfig] nor [getConfig] panics, on any arguments and
    environment. *)
Theorem resolvers_never_panic X P fs :
  (∃ r, getGlobalConfig X P fs = Val r) ∧ (∃ r, getConfig P = Val r).
Proof. split; [apply getGlobalConfig_total | apply getConfig_total]. Qed.

(** When [getConfig] reports a mode configuration file, it is the last
    argument and a configuration-file token; otherwise the name it
    returns is empty. *)
Theorem getConfig_returns_last_config_token P c ok :
  getConfig P = Val (c, ok) →
  if ok then last (Args P) = Some c ∧ isConfig c = true else c = "".
Proof.
  unfold getConfig. cbv zeta.
  assert (∀ b, b = true →
    (configNum (Args P) =? 1)%Z = true ∨ (configNum (Args P) =? 2)%Z = true →
    (a ← index (Args P) (len (Args P) - 1); mret (a, b)) = Val (c, ok) →
    if ok then last (Args P) = Some c ∧ isConfig c = true else c = "") as Hlast.
  { intros b -> Hnum.
    destruct (configNum_ge_1 (Args P)) as (front & c' & -> & Hc').
    { destruct Hnum as [H|H]; apply Z.eqb_eq in H; lia. }
    rewrite index_last. intros [= <- <-]. by rewrite last_snoc. }
  destruct (String.eqb (Getenv P "SHELLFISH_GLOBAL_CONFIG") "");
    destruct (configNum (Args P) =? 1)%Z eqn:E1;
    destruct (configNum (Args P) =? 2)%Z eqn:E2; simpl;
    first [ by intros [= <- <-] | apply Hlast; auto ].
Qed.

Lemma getConfig_returns_last_config_token_witness :
  last ["shellfish"; "id"; "g.config"; "id.config"] = Some "id.config"
  ∧ isConfig "id.config" = true.
Proof.
  exact (getConfig_returns_last_config_token
    (mkProc ["shellfish"; "id"; "g.config"; "id.config"] Demo.unset (Ok ""))
    "id.config" true eq_refl).
Defined.

(** A successful [getGlobalConfig] returns the name of the file it read
    together with the configuration read from that file.  The name is the
    value of the environment variable when that is set; otherwise it is a
    configuration-file token of the command line, and never the last of
    two. *)
Theorem getGlobalConfig_returns_what_it_read X P fs name cfg :
  getGlobalConfig X P fs = Val (Ok (name, cfg)) →
  GlobalConfig_ReadConfig X fs name = Ok cfg
  ∧ (Getenv P "SHELLFISH_GLOBAL_CONFIG" ≠ "" →
     name = Getenv P "SHELLFISH_GLOBAL_CONFIG")
  ∧ (Getenv P "SHELLFISH_GLOBAL_CONFIG" = "" →
     isConfig name = true
     ∧ (∃ front, Args P = front ++ [name] ∧ configNum (Args P) = 1%Z
        ∨ ∃ m, Args P = front ++ [name; m] ∧ configNum (Args P) = 2%Z)).
Proof.
  unfold getGlobalConfig. cbv zeta.
  destruct (String.eqb (Getenv P "SHELLFISH_GLOBAL_CONFIG") "") eqn:Henv; simpl.
  - apply String.eqb_eq in Henv.
    destruct (configNum (Args P)) as [|p|p] eqn:E; [done| |done].
    destruct p as [p|p|]; [done| |].
    + destruct p; [done|done|].
      destruct (configNum_ge_2 (Args P)) as (front & g & c & Hargs & Hg & _);
        [lia|].
      rewrite Hargs, index_last_but_one. intros [= H].
      apply loadGlobalConfig_inv in H as [-> H].
      split; [done|]. split; [done|]. intros _. split; [done|].
      exists front. right. exists c. by rewrite <- Hargs.
    + destruct (configNum_ge_1 (Args P)) as (front & c & Hargs & Hc); [lia|].
      rewrite Hargs, index_last. intros [= H].
      apply loadGlobalConfig_inv in H as [-> H].
      split; [done|]. split; [done|]. intros _. split; [done|].
      exists front. left. by rewrite <- Hargs.
  - apply String.eqb_neq in Henv.
    destruct (_ <? _)%Z; [done|]. intros [= H].
    apply loadGlobalConfig_inv in H as [-> H]. done.
Qed.

Lemma getGlobalConfig_returns_what_it_read_witness :
  GlobalConfig_ReadConfig Demo.deps Demo.disk "g.config"
  = Ok (Demo.config "gotetra" "Text" "consistent-trees" "memo" 1).
Proof.
  exact (proj1 (getGlobalConfig_returns_what_it_read Demo.deps
    (mkProc ["shellfish"; "id"; "g.config"; "id.config"] Demo.unset (Ok ""))
    Demo.disk "g.config"
    (Demo.config "gotetra" "Text" "consistent-trees" "memo" 1) eq_refl)).
Defined.

(** ** The memoization guard *)

(** [int64sEqual] and [stringsEqual] decide equality of the two slices:
    same length and same element at every index. *)
Theorem slice_equality_tests :
  (∀ xs ys, int64sEqual xs ys = true ↔ xs = ys)
  ∧ (∀ xs ys, stringsEqual xs ys = true ↔ xs = ys).
Proof. split; [apply int64sEqual_spec | apply stringsEqual_spec]. Qed.

Lemma CacheFieldsAgree_sym m c : CacheFieldsAgree m c → CacheFieldsAgree c m.
Proof.
  unfold CacheFieldsAgree, AgreeOutsideMemoDir. intros H.
  repeat match goal with H : _ ∧ _ |- _ => destruct H end.
  repeat split; by symmetry.
Qed.

Lemma CacheFieldsAgree_trans a b c :
  CacheFieldsAgree a b → CacheFieldsAgree b c → CacheFieldsAgree a c.
Proof.
  unfold CacheFieldsAgree, AgreeOutsideMemoDir. intros H1 H2.
  repeat match goal with H : _ ∧ _ |- _ => destruct H end.
  repeat split; congruence.
Qed.

(** [configEqual] is an equivalence on configurations: the order of its
    two arguments does not matter, and snapshots that match the same
    configuration match each other. *)
Theorem configEqual_equivalence :
  (∀ c, configEqual c c = true)
  ∧ (∀ m c, configEqual m c = configEqual c m)
  ∧ (∀ a b c, configEqual a b = true → configEqual b c = true →
              configEqual a c = true).
Proof.
  split; [|split].
  - intros c. apply configEqual_spec, CacheFieldsAgree_refl.
  - intros m c. pose proof (configEqual_spec m c) as H1.
    pose proof (configEqual_spec c m) as H2.
    destruct (configEqual m c), (configEqual c m); try done.
    + symmetry. apply H2, CacheFieldsAgree_sym, H1. done.
    + apply H1, CacheFieldsAgree_sym, H2. done.
  - intros a b c Hab Hbc. apply configEqual_spec.
    apply configEqual_spec in Hab, Hbc.
    by apply (CacheFieldsAgree_trans a b c).
Qed.

Lemma configEqual_equivalence_witness :
  configEqual (Demo.config "gotetra" "Text" "consistent-trees" "memo" 1)
              (Demo.config "gotetra" "Text" "nil" "memo" 8) = true.
Proof.
  exact (proj2 (proj2 configEqual_equivalence)
    (Demo.config "gotetra" "Text" "consistent-trees" "memo" 1)
    (Demo.config "gotetra" "Text" "consistent-trees" "memo" 4)
    (Demo.config "gotetra" "Text" "nil" "memo" 8) eq_refl eq_refl).
Defined.



(** A [copyFile] whose source does not exist, or whose destination cannot
    be created, returns an error and leaves the file system as it was. *)
Theorem copyFile_failure_changes_nothing X dst src fs :
  os_Stat_ok fs src = false ∨ os_Create_ok X fs dst = false →
  ∃ e, copyFile X dst src fs = (Some e, fs).
Proof.
  unfold copyFile, os_Open_ok. intros [H|H].
  - rewrite H. simpl. eauto.
  - destruct (os_Stat_ok fs src); simpl; [rewrite H; simpl|]; eauto.
Qed.

Lemma copyFile_failure_changes_nothing_witness :
  ∃ e, copyFile Demo.deps "nowhere/memo.config" "g.config" Demo.disk
       = (Some e, Demo.disk).
Proof.
  exact (copyFile_failure_changes_nothing Demo.deps "nowhere/memo.config"
           "g.config" Demo.disk (or_intror eq_refl)).
Defined.

(** [checkMemoDir] changes at most one thing: the snapshot file of the
    directory.  Directories and all other files are as before, whatever
    it returns. *)
Theorem checkMemoDir_touches_only_snapshot X memoDir configFile fs :
  dirs (checkMemoDir X memoDir configFile fs).2 = dirs fs
  ∧ ∀ p, p ≠ memoConfigFile X memoDir →
         files (checkMemoDir X memoDir configFile fs).2 !! p = files fs !! p.
Proof.
  unfold checkMemoDir, copyFile.
  destruct (negb (os_Stat_ok fs _)).
  - destruct (negb (os_Open_ok fs configFile)); [done|].
    destruct (negb (os_Create_ok X fs _)); [done|].
    destruct (files (os_Create fs _) !! configFile); simpl;
      (split; [done|]); intros p Hp; by rewrite !lookup_insert_ne.
  - destruct (GlobalConfig_ReadConfig X fs configFile); [|done].
    destruct (GlobalConfig_ReadConfig X fs (memoConfigFile X memoDir));
      [|done].
    by destruct (negb _).
Qed.

(** Once a snapshot exists, [checkMemoDir] only reads: the file system it
    returns is the one it was given, on success and on failure. *)
Theorem checkMemoDir_existing_snapshot_read_only X memoDir configFile fs :
  os_Stat_ok fs (memoConfigFile X memoDir) = true →
  (checkMemoDir X memoDir configFile fs).2 = fs.
Proof.
  intros Hstat. unfold checkMemoDir. rewrite Hstat. simpl.
  destruct (GlobalConfig_ReadConfig X fs configFile); [|done].
  destruct (GlobalConfig_ReadConfig X fs (memoConfigFile X memoDir)); [|done].
  by destruct (negb _).
Qed.

Lemma checkMemoDir_existing_snapshot_read_only_witness :
  (checkMemoDir Demo.deps "memo" "nil.config"
     (checkMemoDir Demo.deps "memo" "g.config" Demo.disk).2).2
  = (checkMemoDir Demo.deps "memo" "g.config" Demo.disk).2.
Proof.
  exact (checkMemoDir_existing_snapshot_read_only Demo.deps "memo" "nil.config"
           (checkMemoDir Demo.deps "memo" "g.config" Demo.disk).2
           ltac:(vm_compute; reflexivity)).
Defined.

(** First use on a memoization directory that does not exist fails and
    creates nothing. *)
Theorem checkMemoDir_missing_directory X memoDir configFile fs :
  os_Stat_ok fs (memoConfigFile X memoDir) = false →
  path_Dir X (memoConfigFile X memoDir) ∉ dirs fs →
  ∃ e, checkMemoDir X memoDir configFile fs = (Some e, fs).
Proof.
  intros Hstat Hdir. unfold checkMemoDir. rewrite Hstat. simpl.
  unfold copyFile, os_Create_ok. rewrite (bool_decide_eq_false_2 _ Hdir).
  destruct (negb (os_Open_ok fs configFile)); simpl; eauto.
Qed.

Lemma checkMemoDir_missing_directory_witness :
  ∃ e, checkMemoDir Demo.deps "cache" "g.config" Demo.disk = (Some e, Demo.disk).
Proof.
  exact (checkMemoDir_missing_directory Demo.deps "cache" "g.config" Demo.disk
           ltac:(vm_compute; reflexivity) ltac:(vm_compute; discriminate)).
Defined.

(** What a successful [checkMemoDir] guarantees: afterwards the directory
    holds a snapshot that parses, and the configuration agrees with it on
    every compared field. *)
Theorem checkMemoDir_success_means_agreement X memoDir configFile fs fs' C :
  GlobalConfig_ReadConfig X fs configFile = Ok C →
  checkMemoDir X memoDir configFile fs = (None, fs') →
  ∃ S, GlobalConfig_ReadConfig X fs' (memoConfigFile X memoDir) = Ok S
       ∧ CacheFieldsAgree C S.
Proof.
  intros Hread Hcheck.
  destruct (os_Stat_ok fs (memoConfigFile X memoDir)) eqn:Hstat.
  - unfold checkMemoDir in Hcheck. rewrite Hstat, Hread in Hcheck.
    simpl in Hcheck.
    destruct (GlobalConfig_ReadConfig X fs (memoConfigFile X memoDir))
      as [S|e] eqn:Hmemo; [|done].
    destruct (configEqual C S) eqn:Heq; simpl in Hcheck; [|done].
    injection Hcheck as <-. exists S. split; [done|].
    by apply configEqual_spec.
  - pose proof Hread as Hread0.
    apply ReadConfig_Ok_inv in Hread as (text & Hfile & Hparse).
    rewrite (checkMemoDir_seeds _ _ _ _ _ _ Hstat Hfile Hcheck).
    exists C. split; [|apply CacheFieldsAgree_refl].
    unfold GlobalConfig_ReadConfig. simpl. by rewrite lookup_insert_eq.
Qed.

Lemma checkMemoDir_success_means_agreement_witness :
  ∃ S, GlobalConfig_ReadConfig Demo.deps
         (checkMemoDir Demo.deps "memo" "g.config" Demo.disk).2
         "memo/memo.config" = Ok S
       ∧ CacheFieldsAgree
           (Demo.config "gotetra" "Text" "consistent-trees" "memo" 1) S.
Proof.
  exact (checkMemoDir_success_means_agreement Demo.deps "memo" "g.config"
           Demo.disk (checkMemoDir Demo.deps "memo" "g.config" Demo.disk).2
           (Demo.config "gotetra" "Text" "consistent-trees" "memo" 1)
           ltac:(vm_compute; reflexivity) ltac:(vm_compute; reflexivity)).
Defined.

(** ** The halo initialiser *)

(** For a mode other than [shell], [stats] and [prof], [initHalos]
    succeeds exactly when the halo type is [Text] and the text-halo
    initialiser succeeds.  The tree type plays no part in it: a
    configuration with halo type [Text] and tree type [nil] is accepted. *)
Theorem initHalos_succeeds_iff_Text X mode g e fs e' :
  mode ≠ "shell" → mode ≠ "stats" → mode ≠ "prof" →
  initHalos X mode g e fs = Val (e', None) ↔
  cmd.HaloType g = "Text" ∧ InitTextHalo X e g fs = (e', None).
Proof.
  intros H1 H2 H3. rewrite initHalos_cases, !eqb_false_of_ne by done. simpl.
  destruct (String.eqb (cmd.HaloType g) "nil") eqn:Hnil.
  { apply String.eqb_eq in Hnil. rewrite Hnil. split; [done|]. by intros []. }
  destruct (String.eqb (cmd.HaloType g) "Text") eqn:Htext.
  { apply String.eqb_eq in Htext. split; [by intros [= ->] | by intros [_ ->]]. }
  apply String.eqb_neq in Htext.
  destruct (String.eqb (cmd.TreeType g) "nil"); (split; [done | by intros []]).
Qed.

Lemma initHalos_succeeds_iff_Text_witness :
  initHalos Demo.deps "id" (Demo.config "gotetra" "Text" "nil" "memo" 1)
    (env.mkEnvironment "memo" None None) Demo.disk
  = Val (env.mkEnvironment "memo" None (Some "Text"), None).
Proof.
  refine (proj2 (initHalos_succeeds_iff_Text Demo.deps "id"
    (Demo.config "gotetra" "Text" "nil" "memo" 1)
    (env.mkEnvironment "memo" None None) Demo.disk
    (env.mkEnvironment "memo" None (Some "Text")) _ _ _) (conj eq_refl eq_refl));
    discriminate.
Defined.

(** ** Standard input *)

Lemma strings_Split_nl_nonempty text : strings_Split_nl text ≠ [].
Proof.
  destruct text as [|c text]; simpl; [done|].
  destruct (Ascii.eqb c _); [done|]. by destruct (strings_Split_nl text).
Qed.

Lemma concat_cons_String c first others :
  String.concat nl (String c first :: others)
  = String c (String.concat nl (first :: others)).
Proof. by destruct others. Qed.

(** Joining the pieces of [strings.Split] with the separator gives the
    text back. *)
Lemma strings_Split_nl_concat text :
  String.concat nl (strings_Split_nl text) = text.
Proof.
  induction text as [|c text IH]; simpl; [done|].
  destruct (Ascii.eqb c (ascii_of_nat 10)) eqn:Hc.
  - apply Ascii.eqb_eq in Hc as ->.
    destruct (strings_Split_nl text) as [|first others] eqn:E.
    + by apply strings_Split_nl_nonempty in E.
    + change (String.concat nl ("" :: first :: others))
        with ("" +:+ nl +:+ String.concat nl (first :: others)).
      by rewrite IH.
  - destruct (strings_Split_nl text) as [|first others] eqn:E.
    + by apply strings_Split_nl_nonempty in E.
    + by rewrite concat_cons_String, IH.
Qed.

Lemma strings_Split_nl_oneLines text :
  Forall (λ line, oneLine line = true) (strings_Split_nl text).
Proof.
  induction text as [|c text IH]; simpl; [by repeat constructor|].
  destruct (Ascii.eqb c (ascii_of_nat 10)) eqn:Hc; [by constructor|].
  destruct (strings_Split_nl text) as [|first others]; simpl.
  - repeat constructor. simpl. by rewrite Hc.
  - inversion IH as [|? ? Hfirst Hothers]; subst. constructor; [|done].
    simpl. by rewrite Hc, Hfirst.
Qed.

Lemma concat_snoc_empty ls :
  ls ≠ [] → String.concat nl (ls ++ [""]) = String.concat nl ls +:+ nl.
Proof.
  induction ls as [|l ls IH]; [done|]. intros _.
  destruct ls as [|l' ls].
  - simpl. clear. induction l as [|c l IH]; [done|].
    rewrite !append_String. by rewrite IH.
  - change (String.concat nl ((l :: l' :: ls) ++ [""]))
      with (l +:+ nl +:+ String.concat nl ((l' :: ls) ++ [""])).
    rewrite IH by done.
    change (String.concat nl (l :: l' :: ls))
      with (l +:+ nl +:+ String.concat nl (l' :: ls)).
    clear. induction l as [|c l IH].
    + rewrite !append_empty. reflexivity.
    + rewrite !append_String. by rewrite IH.
Qed.

Lemma slice_init {A} (l : list A) (a : A) :
  slice (l ++ [a]) 0 (len (l ++ [a]) - 1) = Val l.
Proof.
  unfold slice. rewrite len_app. change (len [a]) with 1%Z.
  pose proof (len_nonneg l).
  destruct (_ && _) eqn:E.
  - f_equal. replace (Z.to_nat (len l + 1 - 1 - 0)) with (List.length l)
      by (unfold len; lia).
    change (Z.to_nat 0) with 0. by rewrite drop_0, take_app_length.
  - exfalso. apply andb_false_iff in E as [E|E];
      [apply andb_false_iff in E as [E|E]|]; apply Z.leb_gt in E; lia.
Qed.

(** [stdinLines] never panics.  On readable input it returns lines
    without line feeds whose concatenation with line feeds gives the text
    back, up to one final line feed; and it returns no line at all exactly
    for the empty text. *)
Theorem stdinLines_reads_the_lines P text :
  Stdin P = Ok text →
  ∃ lines,
    stdinLines P = Val (Ok lines)
    ∧ Forall (λ line, oneLine line = true) lines
    ∧ (text = String.concat nl lines ∨ text = String.concat nl lines +:+ nl)
    ∧ (lines = [] ↔ text = "").
Proof.
  intros Hin. unfold stdinLines. rewrite Hin.
  pose proof (strings_Split_nl_concat text) as Hjoin.
  pose proof (strings_Split_nl_oneLines text) as Hone.
  pose proof (strings_Split_nl_nonempty text) as Hne.
  destruct (strings_Split_nl text) as [|final init _] using rev_ind; [done|].
  clear Hne. rewrite index_last. simpl.
  destruct (String.eqb final "") eqn:Hlast.
  - apply String.eqb_eq in Hlast as ->. rewrite slice_init. simpl.
    exists init. split; [done|].
    apply Forall_app in Hone as [Hone _]. split; [done|].
    destruct init as [|l0 l].
    + simpl in Hjoin. split; [by left|]. by split.
    + rewrite concat_snoc_empty in Hjoin by done. split; [by right|].
      split; [done|]. intros ->.
      destruct (String.concat nl (l0 :: l)); done.
  - apply String.eqb_neq in Hlast. exists (init ++ [final]).
    split; [done|]. split; [done|]. split; [by left|].
    split; [by destruct init|]. intros ->.
    destruct init as [|l0 l]; simpl in Hjoin; [done|].
    destruct l0; [|by destruct (l ++ [final])].
    destruct (l ++ [final]) eqn:E; [by destruct l|]. done.
Qed.

Lemma stdinLines_reads_the_lines_witness :
  ∃ lines,
    stdinLines (mkProc ["shellfish"; "shell"] Demo.unset
                  (Ok ("1 100" +:+ nl +:+ "2 100" +:+ nl)))
    = Val (Ok lines)
    ∧ ("1 100" +:+ nl +:+ "2 100" +:+ nl = String.concat nl lines
       ∨ "1 100" +:+ nl +:+ "2 100" +:+ nl = String.concat nl lines +:+ nl).
Proof.
  destruct (stdinLines_reads_the_lines
              (mkProc ["shellfish"; "shell"] Demo.unset
                 (Ok ("1 100" +:+ nl +:+ "2 100" +:+ nl)))
              ("1 100" +:+ nl +:+ "2 100" +:+ nl) eq_refl)
    as (lines & Hlines & _ & Hjoin & _).
  exists lines. split; [exact Hlines | exact Hjoin].
Defined.

(** The failure-marker test is the test for the prefix [Shellfish]. *)
Theorem isFailureMarker_iff_prefix line :
  isFailureMarker line = true ↔ ∃ tail, line = "Shellfish" +:+ tail.
Proof.
  split; [|intros [tail ->]; apply isFailureMarker_prefix].
  unfold isFailureMarker, strslice, strlen.
  intros [Hlen Hsub]%andb_true_iff. apply Z.leb_le in Hlen.
  destruct (_ && _) in Hsub; [|done]. apply String.eqb_eq in Hsub.
  exists (substring 9 (String.length line - 9) line).
  change (Z.to_nat 0) with 0 in Hsub. change (Z.to_nat (9 - 0)) with 9 in Hsub.
  rewrite <- Hsub. apply substring_split. lia.
Qed.

(** ** Runs of [main] *)

Lemma printLines_trace out w :
  printLines out w
  = (Done tt,
     mkWorld (w_fs w) (w_trace w ++ map (λ o, EvStdout (o +:+ nl)) out)).
Proof.
  revert w. induction out as [|o out IH]; intros w; simpl.
  - rewrite app_nil_r. by destruct w.
  - unfold mbind, M_bind, fmt_Println, emit. rewrite IH. simpl.
    by rewrite <- app_assoc.
Qed.

Lemma len_0_iff {A} (l : list A) : (len l =? 0)%Z = true ↔ l = [].
Proof.
  rewrite Z.eqb_eq. unfold len. destruct l; simpl; split; intros; try done; lia.
Qed.

Lemma readInput_lines P name lines w :
  InputLines P name lines → readInput P name w = (Done lines, w).
Proof.
  unfold InputLines, readInput. destruct (takesStdin name); [|by intros ->].
  intros (-> & Hne & Hmark).
  unfold mbind, M_bind, lift_go, mret, M_ret.
  destruct (len lines =? 0)%Z eqn:E0.
  { by apply len_0_iff in E0. }
  destruct lines as [|first others]; [done|].
  change (index (first :: others) 0) with (Val (A:=string) first).
  cbv beta iota.
  destruct (len (first :: others) =? 1)%Z eqn:E1; [|done].
  apply Z.eqb_eq, len_1_inv in E1 as [line [= -> ->]].
  by rewrite (Hmark line eq_refl).
Qed.

Lemma builtinMode_false name :
  builtinMode name = false →
  String.eqb name "help" = false ∧ String.eqb name "version" = false
  ∧ String.eqb name "hello" = false.
Proof.
  unfold builtinMode. intros H. apply orb_false_iff in H as [H ?].
  by apply orb_false_iff in H as [? ?].
Qed.

Ltac main_step := cbv beta iota; cbn [w_fs w_trace].

Ltac main_enter Hargs Hbuiltin :=
  let Hh := fresh in let Hv := fresh in let Hl := fresh in
  apply builtinMode_false in Hbuiltin as (Hh & Hv & Hl);
  unfold run, main; rewrite Hargs; cbv zeta;
  match goal with
  | |- context [(len (?prog :: ?name :: ?rest) <=? 1)%Z] =>
      replace (len (prog :: name :: rest) <=? 1)%Z with false
        by (rewrite !len_cons; pose proof (len_nonneg rest); lia);
      change (index (prog :: name :: rest) 1) with (Val (A:=string) name)
  end;
  unfold mbind, M_bind, mret, M_ret, lift_go, get_fs, put_fs, emit;
  main_step; rewrite Hh, Hv, Hl; main_step.

(** The successful run: for a registered mode, when every step succeeds,
    [Run] is given the flags of [getFlags], the global configuration, the
    environment after both initialisers and the input lines, on the file
    system that [checkMemoDir] left.  The process writes the lines that
    [Run] returns, in order, each with a line feed, and ends with status
    [0] on the file system that [Run] left. *)
Theorem main_success X P fs prog name rest mode lines flags config ok gname g
    cm fs1 e1 e2 out fs2 :
  Args P = prog :: name :: rest →
  builtinMode name = false →
  ModeNames X name = Some mode →
  InputLines P name lines →
  getFlags (Args P) = Val flags →
  getConfig P = Val (config, ok) →
  getGlobalConfig X P fs = Val (Ok (gname, g)) →
  ReadConfig mode fs (if ok then config else "") = Ok cm →
  checkMemoDir X (cmd.MemoDir g) gname fs = (None, fs1) →
  initCatalogs X g (env.mkEnvironment (cmd.MemoDir g) None None) fs1
  = Val (e1, None) →
  initHalos X name g e1 fs1 = Val (e2, None) →
  Run cm flags g e2 lines fs1 = (Ok out, fs2) →
  run X P fs
  = (Exited 0,
     mkWorld fs2 ([EvCall "ReadConfig"; EvCall "Run"]
                  ++ map (λ o, EvStdout (o +:+ nl)) out)).
Proof.
  intros Hargs Hbuiltin Hmode Hin Hflags Hcfg Hg Hrc Hmemo Hcat Hhalo Hrun.
  rewrite Hargs in Hflags.
  main_enter Hargs Hbuiltin.
  rewrite Hmode, (readInput_lines _ _ _ _ Hin), Hflags, Hcfg. main_step.
  rewrite Hg. main_step. rewrite Hrc, Hmemo. main_step.
  rewrite Hcat. main_step. rewrite Hhalo. main_step.
  rewrite Hrun. main_step. by rewrite printLines_trace.
Qed.

Lemma main_success_witness :
  run Demo.deps
    (mkProc ["shellfish"; "tree"; "--x"; "1"; "g.config"] Demo.unset
       (Ok ("7 100" +:+ nl +:+ "8 100" +:+ nl)))
    Demo.disk
  = (Exited 0,
     mkWorld (checkMemoDir Demo.deps "memo" "g.config" Demo.disk).2
       [EvCall "ReadConfig"; EvCall "Run";
        EvStdout ("7 100" +:+ nl); EvStdout ("8 100" +:+ nl)]).
Proof.
  refine (main_success Demo.deps
    (mkProc ["shellfish"; "tree"; "--x"; "1"; "g.config"] Demo.unset
       (Ok ("7 100" +:+ nl +:+ "8 100" +:+ nl)))
    Demo.disk "shellfish" "tree" ["--x"; "1"; "g.config"] Demo.echo
    ["7 100"; "8 100"] ["tree"; "--x"] "" false "g.config"
    (Demo.config "gotetra" "Text" "consistent-trees" "memo" 1)
    {| Run := λ _ _ _ lines fs, (Ok lines, fs) |}
    (checkMemoDir Demo.deps "memo" "g.config" Demo.disk).2
    (env.mkEnvironment "memo" (Some "gotetra") None)
    (env.mkEnvironment "memo" (Some "gotetra") (Some "Text"))
    ["7 100"; "8 100"]
    (checkMemoDir Demo.deps "memo" "g.config" Demo.disk).2
    _ _ _ _ _ _ _ _ _ _ _ _); try (vm_compute; reflexivity).
  split; [vm_compute; reflexivity|]. split; [discriminate|].
  intros line [=].
Defined.

(** An unknown mode name is reported on standard error, followed by the
    terminating notice on standard output and exit status [1]; nothing is
    read and nothing is written to the file system. *)
Theorem unknown_mode_is_reported X P fs prog name rest :
  Args P = prog :: name :: rest →
  builtinMode name = false →
  ModeNames X name = None →
  run X P fs
  = (Exited 1,
     mkWorld fs
       [EvStderr ("You passed me the mode '" +:+ name +:+
                  "', which I don't recognize." +:+ nl +:+
                  "For help, type './shellfish help'" +:+ nl);
        EvStdout terminating]).
Proof.
  intros Hargs Hbuiltin Hmode. main_enter Hargs Hbuiltin.
  rewrite Hmode. unfold fmt_Fprintf_Stderr, fmt_Println, os_Exit, emit.
  reflexivity.
Qed.

Lemma unknown_mode_is_reported_witness :
  run Demo.deps (mkProc ["shellfish"; "halo"; "g.config"] Demo.unset (Ok ""))
    Demo.disk
  = (Exited 1,
     mkWorld Demo.disk
       [EvStderr ("You passed me the mode 'halo', which I don't recognize."
                  +:+ nl +:+ "For help, type './shellfish help'" +:+ nl);
        EvStdout terminating]).
Proof.
  exact (unknown_mode_is_reported Demo.deps
    (mkProc ["shellfish"; "halo"; "g.config"] Demo.unset (Ok "")) Demo.disk
    "shellfish" "halo" ["g.config"] eq_refl eq_refl eq_refl).
Defined.

Lemma takesStdin_not_builtin name : takesStdin name = true → builtinMode name = false.
Proof. by intros [-> | [-> | [-> | [-> | ->]]]]%takesStdin_inv. Qed.

(** Empty standard input, for a registered mode that reads it: the
    process ends at once with status [0]; it prints nothing, calls no
    operation of the mode and leaves the file system alone.  The input has
    to be empty for that: a lone line feed is one (empty) line. *)
Theorem empty_input_silent_success X P fs prog name rest mode :
  Args P = prog :: name :: rest →
  takesStdin name = true →
  ModeNames X name = Some mode →
  Stdin P = Ok "" →
  run X P fs = (Exited 0, mkWorld fs []).
Proof.
  intros Hargs Htakes Hmode Hin.
  pose proof (takesStdin_not_builtin _ Htakes) as Hbuiltin.
  assert (stdinLines P = Val (Ok [])) as Hlines
    by (unfold stdinLines; by rewrite Hin).
  main_enter Hargs Hbuiltin.
  rewrite Hmode. unfold readInput. rewrite Htakes.
  unfold mbind, M_bind, lift_go. by rewrite Hlines.
Qed.

Lemma empty_input_silent_success_witness :
  run Demo.deps (mkProc ["shellfish"; "shell"; "g.config"] Demo.unset (Ok ""))
    Demo.disk
  = (Exited 0, mkWorld Demo.disk []).
Proof.
  exact (empty_input_silent_success Demo.deps
    (mkProc ["shellfish"; "shell"; "g.config"] Demo.unset (Ok "")) Demo.disk
    "shellfish" "shell" ["g.config"] Demo.echo eq_refl eq_refl eq_refl eq_refl).
Defined.

(** The exit status of the process is [0] or [1], whenever it ends by
    [os.Exit] or by the return of [main]. *)
Theorem exit_status_0_or_1 X P fs code w :
  run X P fs = (Exited code, w) → code = 0%Z ∨ code = 1%Z.
Proof.
  intros Hrun. destruct (decide (code = 0%Z)) as [|Hcode]; [by left|]. right.
  destruct (decide (1 < len (Args P))%Z) as [Hargs|Hargs].
  - unfold run in Hrun.
    pose proof (notice_main X P (mkWorld fs []) Hargs code) as Hmain.
    destruct (main X P (mkWorld fs [])) as [[[]|st] w'].
    + by injection Hrun as <- <-.
    + injection Hrun as -> ->. by apply Hmain.
  - unfold run, main in Hrun. cbv zeta in Hrun.
    replace (len (Args P) <=? 1)%Z with true in Hrun
      by (symmetry; apply Z.leb_le; lia).
    unfold mbind, M_bind, fmt_Fprintf_Stderr, emit, os_Exit in Hrun.
    simpl in Hrun. by injection Hrun as <- _.
Qed.

Lemma exit_status_0_or_1_witness : (1 = 0 ∨ 1 = 1)%Z.
Proof.
  exact (exit_status_0_or_1 Demo.deps
    (mkProc ["shellfish"; "halo"; "g.config"] Demo.unset (Ok "")) Demo.disk 1
    (mkWorld Demo.disk
       [EvStderr ("You passed me the mode 'halo', which I don't recognize."
                  +:+ nl +:+ "For help, type './shellfish help'" +:+ nl);
        EvStdout terminating])
    ltac:(vm_compute; reflexivity)).
Defined.

(** The three names that [main] handles itself, [help], [version] and
    [hello], always end with status [0]: at most one chunk is written to
    standard output, the registry, the configuration files and standard
    input are not consulted, and the file system is left alone. *)
Theorem builtin_modes_exit_0 X P fs prog name rest :
  Args P = prog :: name :: rest →
  builtinMode name = true →
  ∃ tr, run X P fs = (Exited 0, mkWorld fs tr)
        ∧ (tr = [] ∨ ∃ s, tr = [EvStdout s]).
Proof.
  intros Hargs Hbuiltin.
  unfold run, main, helpMode, fmt_Println, fmt_Printf. rewrite Hargs. cbv zeta.
  replace (len (prog :: name :: rest) <=? 1)%Z with false
    by (rewrite !len_cons; pose proof (len_nonneg rest); lia).
  change (index (prog :: name :: rest) 1) with (Val (A:=string) name).
  unfold mbind, M_bind, mret, M_ret, lift_go, emit, os_Exit. main_step.
  unfold builtinMode in Hbuiltin.
  destruct (String.eqb name "help") eqn:Hh.
  - destruct rest as [|t1 [|t2 [|t3 rest]]].
    + simpl. eauto.
    + change (len [prog; name; t1] - 2)%Z with 1%Z. main_step.
      change (index [prog; name; t1] 2) with (Val (A:=string) t1). main_step.
      destruct (helpStrings X t1); simpl; eauto.
    + simpl. eauto.
    + rewrite !len_cons. pose proof (len_nonneg rest).
      destruct (1 + (1 + (1 + (1 + (1 + len rest)))) - 2)%Z
        as [|[p|p|]|p] eqn:E; try lia; destruct p; try lia; simpl; eauto.
  - destruct (String.eqb name "version") eqn:Hv; [simpl; eauto|].
    destruct (String.eqb name "hello") eqn:Hl; [simpl; eauto|done].
Qed.

Lemma builtin_modes_exit_0_witness :
  ∃ tr, run Demo.deps
          (mkProc ["shellfish"; "help"; "id"; "shell"; "stats"] Demo.unset
             (Err "closed"))
          Demo.disk
        = (Exited 0, mkWorld Demo.disk tr)
        ∧ (tr = [] ∨ ∃ s, tr = [EvStdout s]).
Proof.
  exact (builtin_modes_exit_0 Demo.deps
    (mkProc ["shellfish"; "help"; "id"; "shell"; "stats"] Demo.unset
       (Err "closed"))
    Demo.disk "shellfish" "help" ["id"; "shell"; "stats"] eq_refl eq_refl).
Defined.

(** Standard input matters only to the modes [tree], [coord], [prof],
    [shell] and [stats]: for any other second argument the run is the
    same whatever standard input holds, even when it cannot be read. *)
Theorem stdin_ignored_by_other_modes X args getenv in1 in2 fs :
  (∀ name, index args 1 = Val name → takesStdin name = false) →
  run X (mkProc args getenv in1) fs = run X (mkProc args getenv in2) fs.
Proof.
  intros Hname. unfold run, main. cbv zeta. cbn [Args].
  destruct (len args <=? 1)%Z; [reflexivity|].
  destruct (index args 1) as [name|msg]; [|reflexivity].
  specialize (Hname name eq_refl).
  unfold mbind, M_bind, mret, M_ret, lift_go. main_step.
  match goal with
  | |- context [(if String.eqb name "help" then ?a else ?b) ?w] =>
      destruct ((if String.eqb name "help" then a else b) w) as [[[]|st] w']
  end; [|reflexivity].
  destruct (ModeNames X name) as [mode|]; [|reflexivity].
  unfold readInput. rewrite Hname. reflexivity.
Qed.

Lemma stdin_ignored_by_other_modes_witness :
  run Demo.deps
    (mkProc ["shellfish"; "id"; "g.config"] Demo.unset
       (Ok "Shellfish terminating."))
    Demo.disk
  = run Demo.deps
      (mkProc ["shellfish"; "id"; "g.config"] Demo.unset (Err "closed"))
      Demo.disk.
Proof.
  apply stdin_ignored_by_other_modes. intros name [= <-]. reflexivity.
Defined.

Ltac destruct_innermost :=
  match goal with
  | |- context [match ?x with _ => _ end] =>
      lazymatch x with
      | context [match _ with _ => _ end] => fail
      | _ => destruct x eqn:?
      end
  end.

Ltac no_run :=
  let Hin := fresh in
  intros Hin; exfalso;
  repeat (apply elem_of_cons in Hin as [Hin|Hin]; [discriminate Hin|]);
  by apply elem_of_nil in Hin.

(** The operation [Run] of a mode is called only after the global
    configuration has been resolved, the memoization guard has accepted
    it, and both backend initialisers have succeeded on the file system
    that the guard left. *)
Theorem Run_only_after_guard X P fs name :
  index (Args P) 1 = Val name →
  EvCall "Run" ∈ w_trace (run X P fs).2 →
  ∃ gname g e1 e2,
    getGlobalConfig X P fs = Val (Ok (gname, g))
    ∧ (checkMemoDir X (cmd.MemoDir g) gname fs).1 = None
    ∧ initCatalogs X g (env.mkEnvironment (cmd.MemoDir g) None None)
        (checkMemoDir X (cmd.MemoDir g) gname fs).2 = Val (e1, None)
    ∧ initHalos X name g e1 (checkMemoDir X (cmd.MemoDir g) gname fs).2
      = Val (e2, None).
Proof.
  intros Hname. unfold run, main, readInput, helpMode, fatal, return_from_main,
    fmt_Println, fmt_Printf, fmt_Fprintf_Stderr, log_Printf.
  cbv zeta. rewrite Hname.
  unfold mbind, M_bind, mret, M_ret, lift_go, get_fs, put_fs, emit, os_Exit.
  main_step.
  repeat (destruct_innermost; main_step; try (simpl; no_run)).
  all: intros _; do 4 eexists; (split; [first [eassumption | reflexivity]|]);
    match goal with H : checkMemoDir _ _ _ _ = _ |- _ => rewrite H end;
    simpl; by eauto.
Qed.

Lemma Run_only_after_guard_witness :
  ∃ gname g e1 e2,
    getGlobalConfig Demo.deps
      (mkProc ["shellfish"; "id"; "g.config"] Demo.unset (Ok "")) Demo.disk
    = Val (Ok (gname, g))
    ∧ (checkMemoDir Demo.deps (cmd.MemoDir g) gname Demo.disk).1 = None
    ∧ initCatalogs Demo.deps g (env.mkEnvironment (cmd.MemoDir g) None None)
        (checkMemoDir Demo.deps (cmd.MemoDir g) gname Demo.disk).2
      = Val (e1, None)
    ∧ initHalos Demo.deps "id" g e1
        (checkMemoDir Demo.deps (cmd.MemoDir g) gname Demo.disk).2
      = Val (e2, None).
Proof.
  apply (Run_only_after_guard Demo.deps
    (mkProc ["shellfish"; "id"; "g.config"] Demo.unset (Ok "")) Demo.disk "id"
    eq_refl).
  change (EvCall "Run" ∈ [EvCall "ReadConfig"; EvCall "Run"]).
  apply list_elem_of_further, list_elem_of_here.
Defined.









Lemma checkMemoDir_touches_only_snapshot_witness :
  files (checkMemoDir Demo.deps "memo" "g.config" Demo.disk).2 !! "g.config"
  = files Demo.disk !! "g.config".
Proof.
  exact (proj2 (checkMemoDir_touches_only_snapshot Demo.deps "memo" "g.config"
                  Demo.disk) "g.config" ltac:(vm_compute; discriminate)).
Defined.
